(** * DetectiveTools: the ground-truth-safe action wrapper

    A shallow embedding of [agent_tools/actions.py].  The wrapper
    [DetectiveTools._call] validates a named tool call against a case
    database, canonicalizes the arguments, and resolves the call by an
    exact lookup followed (in smart mode) by a fuzzy lookup.  Failures are
    delivered either as a returned string or as a raised [ToolException].

    The wrapper depends on the database class [CaseDB] of
    [agent_tools/db.py] and on the table [FIELD_ALIAS_CATEGORY] of
    [agent_tools/constants.py] only through the methods it calls: it is
    embedded over an interface record for the former and a map variable
    for the latter.  The store and the canonicalizer behind that interface
    are modelled separately, in [Store] and [Canon]. *)

From Stdlib Require Import String Ascii List Bool Arith Lia.
From stdpp Require Import base option list strings gmap fin_maps.

(** ** Python values the wrapper manipulates *)

(** What a call into the tool layer produces: a returned [str], or a raised
    [ToolException] carrying a message. *)
Inductive Outcome : Type :=
  | Returned (s : string)
  | Raised (msg : string).

Definition text (o : Outcome) : string :=
  match o with Returned s => s | Raised msg => msg end.

(** Whether [sub] occurs in [s]. *)
Fixpoint contains (sub s : string) : bool :=
  String.prefix sub s
  || match s with
     | EmptyString => false
     | String _ s' => contains sub s'
     end.

#[global] Instance Outcome_eq_dec : EqDecision Outcome.
Proof. solve_decision. Defined.

(** ** The database interface

    Every method of [self._db] that the wrapper uses, and the attribute
    [actions_catalog] by its keys.  [input_arg_order] raises [KeyError] for
    an action missing from the catalog: that is [None] here.  [lookup_fuzzy]
    returns a pair of an optional response and a debug value of some type
    [Dbg].  The other methods return normally. *)
Record CaseDB (Dbg : Type) : Type := {
  case_exists : string → bool;
  input_arg_order : string → option (list string);
  actions_for_case : string → gset string;
  canonicalize : string → string → string;
  lookup_exact : string → string → list string → option string;
  lookup_fuzzy : string → string → list string → option string * Dbg;
  actions_catalog : gset string;
}.
Arguments case_exists {Dbg}.
Arguments input_arg_order {Dbg}.
Arguments actions_for_case {Dbg}.
Arguments canonicalize {Dbg}.
Arguments lookup_exact {Dbg}.
Arguments lookup_fuzzy {Dbg}.
Arguments actions_catalog {Dbg}.

(** The calls a wrapper invocation makes into the database, in order. *)
Inductive DbCall : Type :=
  | CallCaseExists (case : string)
  | CallInputArgOrder (action : string)
  | CallActionsForCase (case : string)
  | CallCanonicalize (cat v : string)
  | CallLookupExact (case action : string) (args : list string)
  | CallLookupFuzzy (case action : string) (args : list string).

#[global] Instance DbCall_eq_dec : EqDecision DbCall.
Proof. solve_decision. Defined.

Definition is_lookup_exact (c : DbCall) : bool :=
  match c with CallLookupExact _ _ _ => true | _ => false end.

Definition is_lookup_fuzzy (c : DbCall) : bool :=
  match c with CallLookupFuzzy _ _ _ => true | _ => false end.

Definition is_lookup (c : DbCall) : bool :=
  is_lookup_exact c || is_lookup_fuzzy c.

(** A computation that returns a value and the database calls it made. *)
Definition Logged (A : Type) : Type := A * list DbCall.

#[global] Instance Logged_ret : MRet Logged := λ A a, (a, []).
#[global] Instance Logged_bind : MBind Logged := λ A B k m,
  let '(a, t1) := m in let '(b, t2) := k a in (b, t1 ++ t2).

Definition value {A} (m : Logged A) : A := fst m.
Definition calls {A} (m : Logged A) : list DbCall := snd m.

Section Database.
Context {Dbg : Type} (db : CaseDB Dbg).

Definition db_case_exists (c : string) : Logged bool :=
  (case_exists db c, [CallCaseExists c]).
Definition db_input_arg_order (a : string) : Logged (option (list string)) :=
  (input_arg_order db a, [CallInputArgOrder a]).
Definition db_actions_for_case (c : string) : Logged (gset string) :=
  (actions_for_case db c, [CallActionsForCase c]).
Definition db_canonicalize (cat v : string) : Logged string :=
  (canonicalize db cat v, [CallCanonicalize cat v]).
Definition db_lookup_exact (c a : string) (args : list string)
  : Logged (option string) :=
  (lookup_exact db c a args, [CallLookupExact c a args]).
Definition db_lookup_fuzzy (c a : string) (args : list string)
  : Logged (option string * Dbg) :=
  (lookup_fuzzy db c a args, [CallLookupFuzzy c a args]).
End Database.

(** ** Message texts *)

Definition hex_digit (n : nat) : ascii :=
  match n with
  | 0 => "0" | 1 => "1" | 2 => "2" | 3 => "3" | 4 => "4" | 5 => "5"
  | 6 => "6" | 7 => "7" | 8 => "8" | 9 => "9" | 10 => "a" | 11 => "b"
  | 12 => "c" | 13 => "d" | 14 => "e" | _ => "f"
  end%char.

Definition backslash : ascii := ascii_of_nat 92.
Definition single_quote : ascii := ascii_of_nat 39.
Definition double_quote : ascii := ascii_of_nat 34.

(** [repr] of a Python [str], on strings of ASCII characters: the quote is
    the single quote unless the text holds a single quote and no double
    quote; the backslash, the chosen quote and control characters are
    escaped.  Bytes from 128 up stand for printable characters and are
    kept. *)
Definition py_repr_char (quote : ascii) (c : ascii) : string :=
  let n := nat_of_ascii c in
  if Ascii.eqb c backslash then String backslash (String backslash EmptyString)
  else if Ascii.eqb c quote then String backslash (String quote EmptyString)
  else if n =? 10 then String backslash "n"
  else if n =? 13 then String backslash "r"
  else if n =? 9 then String backslash "t"
  else if (n <? 32) || (n =? 127) then
    String backslash (String "x" (String (hex_digit (n / 16))
      (String (hex_digit (n mod 16)) EmptyString)))
  else String c EmptyString.

Fixpoint has_char (c : ascii) (s : string) : bool :=
  match s with
  | EmptyString => false
  | String d s' => Ascii.eqb c d || has_char c s'
  end.

Fixpoint py_repr_body (quote : ascii) (s : string) : string :=
  match s with
  | EmptyString => EmptyString
  | String c s' => py_repr_char quote c +:+ py_repr_body quote s'
  end.

Definition py_repr_str (s : string) : string :=
  let quote : ascii :=
    if has_char single_quote s && negb (has_char double_quote s)
    then double_quote else single_quote in
  String quote (py_repr_body quote s +:+ String quote EmptyString).

Fixpoint py_join (sep : string) (l : list string) : string :=
  match l with
  | [] => EmptyString
  | [x] => x
  | x :: l' => x +:+ sep +:+ py_join sep l'
  end.

(** [repr] of a Python list of [str]. *)
Definition py_repr_list (l : list string) : string :=
  "[" +:+ py_join ", " (map py_repr_str l) +:+ "]".

Definition MSG_UNKNOWN_CASE : string := "[error] Unknown case_id.".
Definition MSG_UNKNOWN_ACTION : string := "[error] Unknown action.".
Definition MSG_NOT_ENABLED : string :=
  "[error] This action is not available for the current case.".
Definition MSG_MISSING_ARGUMENT (missing : string) (expected_order : list string)
  : string :=
  "[error] Missing required argument '" +:+ missing +:+ "'. Required args: "
    +:+ py_repr_list expected_order.
Definition MSG_NO_MATCH_EXACT : string :=
  "[no-match] Inputs not recognized. Check spelling, use full names, and standard time ranges (e.g., '20:10-20:20').".
Definition MSG_NO_MATCH_SMART : string :=
  "[no-match] Could not confidently match your inputs. Try exact location names and full person names.".

(** ** The wrapper *)

Record DetectiveTools (Dbg : Type) : Type := {
  _db : CaseDB Dbg;
  case_id : string;
  match_mode : string;
  raise_errors : bool;
}.
Arguments _db {Dbg}.
Arguments case_id {Dbg}.
Arguments match_mode {Dbg}.
Arguments raise_errors {Dbg}.

Definition set_case {Dbg} (self : DetectiveTools Dbg) (c : string)
  : DetectiveTools Dbg :=
  {| _db := _db self; case_id := c; match_mode := match_mode self;
     raise_errors := raise_errors self |}.

Definition set_raise_errors {Dbg} (self : DetectiveTools Dbg) (b : bool)
  : DetectiveTools Dbg :=
  {| _db := _db self; case_id := case_id self; match_mode := match_mode self;
     raise_errors := b |}.

Definition is_not_None {A} (o : option A) : bool :=
  match o with Some _ => true | None => false end.

(** Truth value of [FIELD_ALIAS_CATEGORY.get(name)]: [None] and the empty
    string are false. *)
Definition truthy_category (cat : option string) : option string :=
  match cat with
  | Some EmptyString => None
  | Some c => Some c
  | None => None
  end.

Section Call.
Context {Dbg : Type}.
(** The module constant of [agent_tools/constants.py]: argument name to
    alias category. *)
Variable FIELD_ALIAS_CATEGORY : gmap string string.

(** The loop that builds [args_in_order].  [kwargs] holds [str] of every
    named argument the caller passed.  [inl name] is the [KeyError] that
    [kwargs[name]] raises for an absent name. *)
Fixpoint collect_args (db : CaseDB Dbg) (kwargs : gmap string string)
    (expected_order : list string) (args_in_order : list string)
  : Logged (string + list string) :=
  match expected_order with
  | [] => mret (inr args_in_order)
  | name :: rest =>
      match kwargs !! name with
      | None => mret (inl name)
      | Some v =>
          a ← match truthy_category (FIELD_ALIAS_CATEGORY !! name) with
              | Some cat => db_canonicalize db cat v
              | None => mret v
              end;
          collect_args db kwargs rest (args_in_order ++ [a])
      end
  end.

Definition _maybe_error (use_raise : bool) (msg : string) : Outcome :=
  if use_raise then Raised msg else Returned msg.

Definition _call (self : DetectiveTools Dbg) (action_name : string)
    (raise_errors_kw : option bool) (kwargs : gmap string string)
  : Logged Outcome :=
  let use_raise :=
    match raise_errors_kw with
    | None => raise_errors self
    | Some b => b
    end in
  known ← db_case_exists (_db self) (case_id self);
  if negb known then mret (_maybe_error use_raise MSG_UNKNOWN_CASE) else
  order ← db_input_arg_order (_db self) action_name;
  match order with
  | None => mret (_maybe_error use_raise MSG_UNKNOWN_ACTION)
  | Some expected_order =>
      enabled ← db_actions_for_case (_db self) (case_id self);
      if negb (bool_decide (action_name ∈ enabled))
      then mret (_maybe_error use_raise MSG_NOT_ENABLED) else
      built ← collect_args (_db self) kwargs expected_order [];
      match built with
      | inl missing =>
          mret (_maybe_error use_raise
                  (MSG_MISSING_ARGUMENT missing expected_order))
      | inr args_in_order =>
          resp ← db_lookup_exact (_db self) (case_id self) action_name
                   args_in_order;
          if is_not_None resp || String.eqb (match_mode self) "exact" then
            match resp with
            | None => mret (_maybe_error use_raise MSG_NO_MATCH_EXACT)
            | Some r => mret (Returned r)
            end
          else
            '(resp, _dbg) ← db_lookup_fuzzy (_db self) (case_id self)
                              action_name args_in_order;
            match resp with
            | None => mret (_maybe_error use_raise MSG_NO_MATCH_SMART)
            | Some r => mret (Returned r)
            end
      end
  end.
End Call.

(** ** The allowed tool functions *)

Definition _TOOL_METHOD_NAMES : list string :=
  [ "interview_witness"; "review_traffic_cctv"; "check_vehicle_registration";
    "collect_evidence"; "analyze_fingerprints"; "trace_mobile_number";
    "review_access_logs"; "review_wifi_logs"; "check_upi_transactions";
    "interrogate_suspect"; "interrogate_suspect_final";
    "interrogate_suspect_3rd_degree" ].

Section Tools.
Context {Dbg : Type}.
Variable FIELD_ALIAS_CATEGORY : gmap string string.
Local Abbreviation call := (_call FIELD_ALIAS_CATEGORY).

Definition interview_witness (self : DetectiveTools Dbg) (witness_name : string) :=
  call self "interview_witness" None {[ "witness_name" := witness_name ]}.

Definition review_traffic_cctv (self : DetectiveTools Dbg)
    (location timeframe : string) :=
  call self "review_traffic_cctv" None
    (<["location" := location]> {[ "timeframe" := timeframe ]}).

Definition check_vehicle_registration (self : DetectiveTools Dbg)
    (vehicle_number : string) :=
  call self "check_vehicle_registration" None
    {[ "vehicle_number" := vehicle_number ]}.

Definition collect_evidence (self : DetectiveTools Dbg)
    (location evidence_type : string) :=
  call self "collect_evidence" None
    (<["location" := location]> {[ "evidence_type" := evidence_type ]}).

Definition analyze_fingerprints (self : DetectiveTools Dbg) (sample_id : string) :=
  call self "analyze_fingerprints" None {[ "sample_id" := sample_id ]}.

Definition trace_mobile_number (self : DetectiveTools Dbg)
    (mobile_number : string) :=
  call self "trace_mobile_number" None {[ "mobile_number" := mobile_number ]}.

Definition review_access_logs (self : DetectiveTools Dbg)
    (facility_or_room timeframe : string) :=
  call self "review_access_logs" None
    (<["facility_or_room" := facility_or_room]> {[ "timeframe" := timeframe ]}).

Definition review_wifi_logs (self : DetectiveTools Dbg) (area timeframe : string) :=
  call self "review_wifi_logs" None
    (<["area" := area]> {[ "timeframe" := timeframe ]}).

Definition check_upi_transactions (self : DetectiveTools Dbg)
    (party_name timeframe : string) :=
  call self "check_upi_transactions" None
    (<["party_name" := party_name]> {[ "timeframe" := timeframe ]}).

Definition interrogate_suspect (self : DetectiveTools Dbg) (suspect_name : string) :=
  call self "interrogate_suspect" None {[ "suspect_name" := suspect_name ]}.

Definition interrogate_suspect_final (self : DetectiveTools Dbg)
    (suspect_name : string) :=
  call self "interrogate_suspect_final" None {[ "suspect_name" := suspect_name ]}.

Definition interrogate_suspect_3rd_degree (self : DetectiveTools Dbg)
    (suspect_name : string) :=
  call self "interrogate_suspect_3rd_degree" None
    {[ "suspect_name" := suspect_name ]}.

(** *** Calling a bound method with positional and keyword arguments *)

(** The parameter names of each tool method, after [self]. *)
Definition tool_params (name : string) : option (list string) :=
  if String.eqb name "interview_witness" then Some ["witness_name"]
  else if String.eqb name "review_traffic_cctv" then Some ["location"; "timeframe"]
  else if String.eqb name "check_vehicle_registration" then Some ["vehicle_number"]
  else if String.eqb name "collect_evidence" then Some ["location"; "evidence_type"]
  else if String.eqb name "analyze_fingerprints" then Some ["sample_id"]
  else if String.eqb name "trace_mobile_number" then Some ["mobile_number"]
  else if String.eqb name "review_access_logs"
    then Some ["facility_or_room"; "timeframe"]
  else if String.eqb name "review_wifi_logs" then Some ["area"; "timeframe"]
  else if String.eqb name "check_upi_transactions"
    then Some ["party_name"; "timeframe"]
  else if String.eqb name "interrogate_suspect" then Some ["suspect_name"]
  else if String.eqb name "interrogate_suspect_final" then Some ["suspect_name"]
  else if String.eqb name "interrogate_suspect_3rd_degree"
    then Some ["suspect_name"]
  else None.

(** Python's binding of positional and keyword arguments to parameters
    without defaults.  [None] is the [TypeError] for too many positional
    arguments, an unexpected keyword, a parameter given twice, or a
    parameter left unbound. *)
Fixpoint bind_positional (params args : list string)
  : option (list (string * string) * list string) :=
  match args, params with
  | [], _ => Some ([], params)
  | _ :: _, [] => None
  | v :: args', p :: params' =>
      '(bound, rest) ← bind_positional params' args';
      Some ((p, v) :: bound, rest)
  end.

Definition bind_arguments (params args : list string)
    (kwargs : gmap string string) : option (list string) :=
  '(bound, rest) ← bind_positional params args;
  if bool_decide (dom kwargs = list_to_set rest) then
    by_name ← mapM (λ p, kwargs !! p) rest;
    Some (bound.*2 ++ by_name)
  else None.

(** What invoking a bound method produces: the method's own result, or a
    [TypeError] from argument binding. *)
Inductive Invocation : Type :=
  | Completed (r : Logged Outcome)
  | RaisedTypeError.

(** Calling the bound method [getattr(self, name)] with the positional
    arguments [args] and the keyword arguments [kwargs]. *)
Definition invoke_tool (name : string) (self : DetectiveTools Dbg)
    (args : list string) (kwargs : gmap string string) : Invocation :=
  match tool_params name with
  | None => RaisedTypeError
  | Some params =>
      match bind_arguments params args kwargs with
      | None => RaisedTypeError
      | Some [a] =>
          if String.eqb name "interview_witness"
            then Completed (interview_witness self a)
          else if String.eqb name "check_vehicle_registration"
            then Completed (check_vehicle_registration self a)
          else if String.eqb name "analyze_fingerprints"
            then Completed (analyze_fingerprints self a)
          else if String.eqb name "trace_mobile_number"
            then Completed (trace_mobile_number self a)
          else if String.eqb name "interrogate_suspect"
            then Completed (interrogate_suspect self a)
          else if String.eqb name "interrogate_suspect_final"
            then Completed (interrogate_suspect_final self a)
          else if String.eqb name "interrogate_suspect_3rd_degree"
            then Completed (interrogate_suspect_3rd_degree self a)
          else RaisedTypeError
      | Some [a; b] =>
          if String.eqb name "review_traffic_cctv"
            then Completed (review_traffic_cctv self a b)
          else if String.eqb name "collect_evidence"
            then Completed (collect_evidence self a b)
          else if String.eqb name "review_access_logs"
            then Completed (review_access_logs self a b)
          else if String.eqb name "review_wifi_logs"
            then Completed (review_wifi_logs self a b)
          else if String.eqb name "check_upi_transactions"
            then Completed (check_upi_transactions self a b)
          else RaisedTypeError
      | Some _ => RaisedTypeError
      end
  end.

(** ** The LangChain helper *)

(** [try: body finally: final] over the instance state: the finalizer
    runs whether the body returned or raised, and the body's result is
    passed on. *)
Definition try_finally {S R : Type} (body : S → R * S) (final : S → S)
  : S → R * S :=
  λ s, let '(r, s1) := body s in (r, final s1).

(** The closure [_wrapped] built for the bound method [name].  It acts on
    the instance as it is when the tool is invoked. *)
Definition _wrapped (name : string) (args : list string)
    (kwargs : gmap string string)
  : DetectiveTools Dbg → Invocation * DetectiveTools Dbg :=
  λ self,
    let prev := raise_errors self in
    try_finally
      (λ self, let self := set_raise_errors self true in
               (invoke_tool name self args kwargs, self))
      (λ self, set_raise_errors self prev)
      self.

Record StructuredTool : Type := {
  tool_name : string;
  tool_func : list string → gmap string string →
              DetectiveTools Dbg → Invocation * DetectiveTools Dbg;
  tool_handle_error : bool;
}.

(** [None] is the [ImportError] raised when [langchain_core] is not
    installed. *)
Definition as_langchain_tools (langchain_core_installed : bool)
    (self : DetectiveTools Dbg) (handle_tool_error : bool)
  : option (list StructuredTool) :=
  if negb langchain_core_installed then None else
  let available_actions := actions_catalog (_db self) in
  Some (omap (λ name,
                if bool_decide (name ∈ available_actions)
                then Some {| tool_name := name;
                             tool_func := _wrapped name;
                             tool_handle_error := handle_tool_error |}
                else None)
             _TOOL_METHOD_NAMES).
End Tools.

(** ** Vocabulary for the properties *)

(** The six classes of failure of a call. *)
Inductive FailureClass : Type :=
  | UnknownCase
  | UnknownAction
  | ActionNotEnabledForCase
  | MissingArgument
  | NoMatchExact
  | NoMatchFuzzy.

#[global] Instance FailureClass_eq_dec : EqDecision FailureClass.
Proof. solve_decision. Defined.

(** The message texts of each class.  Only the missing-argument text has
    parts that vary: the absent name and the action's argument names. *)
Inductive class_message : FailureClass → string → Prop :=
  | msg_unknown_case : class_message UnknownCase MSG_UNKNOWN_CASE
  | msg_unknown_action : class_message UnknownAction MSG_UNKNOWN_ACTION
  | msg_not_enabled : class_message ActionNotEnabledForCase MSG_NOT_ENABLED
  | msg_missing missing expected_order :
      class_message MissingArgument (MSG_MISSING_ARGUMENT missing expected_order)
  | msg_no_match_exact : class_message NoMatchExact MSG_NO_MATCH_EXACT
  | msg_no_match_smart : class_message NoMatchFuzzy MSG_NO_MATCH_SMART.

(** What a call resolves to before the raise flag is applied. *)
Inductive Verdict : Type :=
  | Response (r : string)
  | Failure (msg : string).

Definition deliver (use_raise : bool) (v : Verdict) : Outcome :=
  match v with
  | Response r => Returned r
  | Failure msg => _maybe_error use_raise msg
  end.

(** The flag a call works with: the per-call override when given, the
    instance flag otherwise. *)
Definition effective_flag {Dbg} (self : DetectiveTools Dbg)
    (raise_errors_kw : option bool) : bool :=
  default (raise_errors self) raise_errors_kw.

Section Key.
Context {Dbg : Type}.
Variable FIELD_ALIAS_CATEGORY : gmap string string.

(** The value [_call] puts in [args_in_order] for the argument [name]. *)
Definition canon_field (db : CaseDB Dbg) (name v : string) : string :=
  match truthy_category (FIELD_ALIAS_CATEGORY !! name) with
  | Some cat => canonicalize db cat v
  | None => v
  end.

(** The key of a call: the canonical values of the named arguments in
    the declared order, or the first declared name the caller left out. *)
Fixpoint canonical_args (db : CaseDB Dbg) (kwargs : gmap string string)
    (expected_order : list string) : string + list string :=
  match expected_order with
  | [] => inr []
  | name :: rest =>
      match kwargs !! name with
      | None => inl name
      | Some v =>
          match canonical_args db kwargs rest with
          | inl missing => inl missing
          | inr l => inr (canon_field db name v :: l)
          end
      end
  end.

(** The database calls that precede the argument loop. *)
Definition validation_calls (self : DetectiveTools Dbg) (action : string)
  : list DbCall :=
  [CallCaseExists (case_id self); CallInputArgOrder action;
   CallActionsForCase (case_id self)].

(** What a call resolves to, apart from the raise flag. *)
Definition verdict (self : DetectiveTools Dbg) (action : string)
    (kwargs : gmap string string) : Verdict :=
  let db := _db self in
  let c := case_id self in
  if negb (case_exists db c) then Failure MSG_UNKNOWN_CASE else
  match input_arg_order db action with
  | None => Failure MSG_UNKNOWN_ACTION
  | Some order =>
      if negb (bool_decide (action ∈ actions_for_case db c))
      then Failure MSG_NOT_ENABLED else
      match canonical_args db kwargs order with
      | inl missing => Failure (MSG_MISSING_ARGUMENT missing order)
      | inr args =>
          match lookup_exact db c action args with
          | Some r => Response r
          | None =>
              if String.eqb (match_mode self) "exact"
              then Failure MSG_NO_MATCH_EXACT
              else match (lookup_fuzzy db c action args).1 with
                   | Some r => Response r
                   | None => Failure MSG_NO_MATCH_SMART
                   end
          end
      end
  end.
End Key.
Arguments validation_calls : simpl never.

(** The same database with another debug component in [lookup_fuzzy]. *)
Definition map_debug {Dbg Dbg'} (g : Dbg → Dbg') (db : CaseDB Dbg) : CaseDB Dbg' :=
  {| case_exists := case_exists db;
     input_arg_order := input_arg_order db;
     actions_for_case := actions_for_case db;
     canonicalize := canonicalize db;
     lookup_exact := lookup_exact db;
     lookup_fuzzy := λ c a args,
       let '(resp, dbg) := lookup_fuzzy db c a args in (resp, g dbg);
     actions_catalog := actions_catalog db |}.

Definition with_db {Dbg Dbg'} (self : DetectiveTools Dbg) (db : CaseDB Dbg')
  : DetectiveTools Dbg' :=
  {| _db := db; case_id := case_id self; match_mode := match_mode self;
     raise_errors := raise_errors self |}.

(** ** The dataset store *)

Module Store.

(** Modelled from the spec: the Dataset Store of [agent_tools/db.py]
    (class [CaseDB]), which is not among the sources.  A store holds, per
    case, the set of enabled action names; the global catalog of actions
    with their ordered argument names; and the scripted tuples, keyed by
    (case id, action name, ordered canonical argument values). *)
Record t : Type := {
  cases : gmap string (gset string);
  catalog : gmap string (list string);
  tuples : gmap (string * string * list string) string;
}.

(** Modelled from the spec: [caseExists(caseId) -> bool]. *)
Definition caseExists (st : t) (c : string) : bool :=
  bool_decide (is_Some (cases st !! c)).

(** Modelled from the spec: [actionsForCase(caseId)], the enabled action
    names of a case. *)
Definition actionsForCase (st : t) (c : string) : gset string :=
  default ∅ (cases st !! c).

(** Modelled from the spec: [inputArgOrder(actionName)], failing with
    UnknownAction when the name is absent from the global catalog. *)
Definition inputArgOrder (st : t) (a : string) : option (list string) :=
  catalog st !! a.

(** Modelled from the spec: [lookupExact(caseId, actionName,
    orderedCanonicalArgs)], a direct key lookup into the scripted-tuple
    table scoped to the case and the action. *)
Definition lookupExact (st : t) (c a : string) (args : list string)
  : option string :=
  tuples st !! (c, a, args).

(** Modelled from the spec: the store as the database of a
    [DetectiveTools] instance.  The canonicalizer and the fuzzy matcher are
    supplied from outside. *)
Definition as_db {Dbg} (st : t) (canon : string → string → string)
    (fuzzy : string → string → list string → option string * Dbg)
  : CaseDB Dbg :=
  {| case_exists := caseExists st;
     input_arg_order := inputArgOrder st;
     actions_for_case := actionsForCase st;
     canonicalize := canon;
     lookup_exact := lookupExact st;
     lookup_fuzzy := fuzzy;
     actions_catalog := dom (catalog st) |}.

End Store.

(** ** Canonicalization *)

Module Canon.

(** Modelled from the spec: the field categories of the alias tables of
    [agent_tools/db.py], which is not among the sources.  [NoCategory] is
    the default tag of fields with no normalization. *)
Inductive Category : Type :=
  | PersonName
  | Location
  | Timeframe
  | VehiclePlate
  | PhoneNumber
  | NoCategory.

#[global] Instance Category_eq_dec : EqDecision Category.
Proof. solve_decision. Defined.

(** *** Character classes (ASCII) *)

Definition is_space (c : ascii) : bool :=
  let n := nat_of_ascii c in (n =? 32) || ((9 <=? n) && (n <=? 13)).

Definition is_digit (c : ascii) : bool :=
  let n := nat_of_ascii c in (48 <=? n) && (n <=? 57).

Definition is_punct (c : ascii) : bool :=
  let n := nat_of_ascii c in
  ((33 <=? n) && (n <=? 47)) || ((58 <=? n) && (n <=? 64))
  || ((91 <=? n) && (n <=? 96)) || ((123 <=? n) && (n <=? 126)).

Definition lower_char (c : ascii) : ascii :=
  let n := nat_of_ascii c in
  if (65 <=? n) && (n <=? 90) then ascii_of_nat (n + 32) else c.

Fixpoint casefold (s : string) : string :=
  match s with
  | EmptyString => EmptyString
  | String c s' => String (lower_char c) (casefold s')
  end.

(** *** Person and location names *)

(** Modelled from the spec: collapsing of whitespace in names.  Every run
    of whitespace becomes one space; [in_run] tells that the previous
    character was whitespace. *)
Fixpoint collapse_from (in_run : bool) (s : string) : string :=
  match s with
  | EmptyString => EmptyString
  | String c s' =>
      if is_space c then
        if in_run then collapse_from true s'
        else String " " (collapse_from true s')
      else String c (collapse_from false s')
  end.

Definition collapse_whitespace (s : string) : string := collapse_from false s.

(** Modelled from the spec: names are case-folded and their internal
    whitespace collapsed; nothing is stripped. *)
Definition normalize_name (s : string) : string :=
  collapse_whitespace (casefold s).

(** *** Vehicle plates and phone numbers *)

Fixpoint strip_separators (s : string) : string :=
  match s with
  | EmptyString => EmptyString
  | String c s' =>
      if is_space c || is_punct c then strip_separators s'
      else String c (strip_separators s')
  end.

(** Modelled from the spec: whitespace, hyphens and punctuation are
    stripped and letters case-folded, leaving one contiguous token. *)
Definition normalize_token (s : string) : string :=
  casefold (strip_separators s).

(** *** Timeframes *)

(** A time of day: hour and minute. *)
Definition Clock : Type := nat * nat.

Definition digit_char (n : nat) : ascii := ascii_of_nat (48 + n).

Definition two_digits (n : nat) : string :=
  String (digit_char (n / 10)) (String (digit_char (n mod 10)) EmptyString).

Definition format_clock (t : Clock) : string :=
  two_digits t.1 +:+ ":" +:+ two_digits t.2.

(** Modelled from the spec: the canonical 24-hour form [HH:MM-HH:MM] of a
    timeframe. *)
Definition format_range (r : Clock * Clock) : string :=
  format_clock r.1 +:+ "-" +:+ format_clock r.2.

Fixpoint strip_whitespace (s : string) : string :=
  match s with
  | EmptyString => EmptyString
  | String c s' =>
      if is_space c then strip_whitespace s' else String c (strip_whitespace s')
  end.

(** Modelled from the spec: the separator of a timeframe.  Splits at the
    first hyphen or word [to]. *)
Fixpoint split_range (s : string) : option (string * string) :=
  match s with
  | EmptyString => None
  | String c s' =>
      if Ascii.eqb c "-" then Some (EmptyString, s')
      else if Ascii.eqb c "t" then
        match s' with
        | String d s'' =>
            if Ascii.eqb d "o" then Some (EmptyString, s'') else None
        | EmptyString => None
        end
      else '(a, b) ← split_range s'; Some (String c a, b)
  end.

(** A non-empty run of at most two decimal digits. *)
Definition parse_number (s : list ascii) : option nat :=
  match s with
  | [a] => if is_digit a then Some (nat_of_ascii a - 48) else None
  | [a; b] =>
      if is_digit a && is_digit b
      then Some (10 * (nat_of_ascii a - 48) + (nat_of_ascii b - 48))
      else None
  | _ => None
  end.

Fixpoint split_colon (s : list ascii) : list ascii * option (list ascii) :=
  match s with
  | [] => ([], None)
  | c :: s' =>
      if Ascii.eqb c ":" then ([], Some s')
      else let '(a, b) := split_colon s' in (c :: a, b)
  end.

(** The [am]/[pm] suffix of an endpoint, if any, and what precedes it. *)
Definition split_meridiem (s : list ascii) : list ascii * option bool :=
  match reverse s with
  | m :: x :: body =>
      if Ascii.eqb m "m" && Ascii.eqb x "a" then (reverse body, Some false)
      else if Ascii.eqb m "m" && Ascii.eqb x "p" then (reverse body, Some true)
      else (s, None)
  | _ => (s, None)
  end.

(** Modelled from the spec: one endpoint of a timeframe, in either
    grammar: [HH:MM] on the 24-hour clock with hour at most 23, or an hour
    of at most 12 with optional [:mm] followed by [am] or [pm]; minutes at
    most 59.  The result tells which grammar it was. *)
Definition parse_endpoint (s : string) : option (bool * Clock) :=
  let '(body, meridiem) := split_meridiem (list_ascii_of_string s) in
  let '(hh, mm) := split_colon body in
  match meridiem with
  | None =>
      h ← (if length hh =? 2 then parse_number hh else None);
      mm ← mm;
      m ← (if length mm =? 2 then parse_number mm else None);
      if (h <=? 23) && (m <=? 59) then Some (false, (h, m)) else None
  | Some pm =>
      h ← parse_number hh;
      m ← match mm with
          | None => Some 0
          | Some mm => if length mm =? 2 then parse_number mm else None
          end;
      if (h <=? 12) && (m <=? 59)
      then Some (true, (h mod 12 + (if pm then 12 else 0), m))
      else None
  end.

(** Modelled from the spec: a timeframe in either surface grammar, with
    [am]/[pm] in any case, optional spaces, and a hyphen or the word [to]
    between the endpoints; both endpoints in the same grammar.  A range
    whose end is not after its start is legal.  [None] rejects a
    malformed string. *)
Definition parse_timeframe (s : string) : option (Clock * Clock) :=
  '(a, b) ← split_range (strip_whitespace (casefold s));
  '(ga, ta) ← parse_endpoint a;
  '(gb, tb) ← parse_endpoint b;
  if Bool.eqb ga gb then Some (ta, tb) else None.

Definition normalize_timeframe (s : string) : option string :=
  format_range <$> parse_timeframe s.




(** *** The normalization pass and the alias tables *)

(** Modelled from the spec: the category-specific normalization applied
    before the alias lookup.  [None] is the input-format error. *)
Definition normalize (cat : Category) (raw : string) : option string :=
  match cat with
  | PersonName | Location => Some (normalize_name raw)
  | Timeframe => normalize_timeframe raw
  | VehiclePlate | PhoneNumber => Some (normalize_token raw)
  | NoCategory => Some raw
  end.

(** Modelled from the spec: [canonicalize(category, rawValue)].  The
    normalized value is looked up in the category's alias table and passed
    through unchanged when the table has no entry for it. *)
Definition canonicalize (alias : Category → gmap string string)
    (cat : Category) (raw : string) : option string :=
  n ← normalize cat raw;
  Some (default n (alias cat !! n)).



End Canon.

(** ** A small dataset

    One case of the kind the demo scripts query, used to run the
    definitions on concrete calls. *)

Module Demo.

Definition FIELD_ALIAS_CATEGORY : gmap string string :=
  <["location" := "location"]>
  (<["timeframe" := "timeframe"]>
  (<["witness_name" := "person"]>
  (<["vehicle_number" := "plate"]> ∅))).

Definition category_of_tag (tag : string) : Canon.Category :=
  if String.eqb tag "person" then Canon.PersonName
  else if String.eqb tag "location" then Canon.Location
  else if String.eqb tag "timeframe" then Canon.Timeframe
  else if String.eqb tag "plate" then Canon.VehiclePlate
  else if String.eqb tag "phone" then Canon.PhoneNumber
  else Canon.NoCategory.

Definition alias (cat : Canon.Category) : gmap string string :=
  match cat with
  | Canon.Location =>
      <["parking-b" := "Parking B"]> (<["parking b" := "Parking B"]> ∅)
  | Canon.Timeframe => <["20:10-20:18" := "20:10-20:20"]> ∅
  | Canon.PersonName => <["nisha" := "Nisha"]> ∅
  | _ => ∅
  end.

(** A value the normalization rejects is passed on as it came. *)
Definition canon (tag v : string) : string :=
  default v (Canon.canonicalize alias (category_of_tag tag) v).

Definition cctv_summary : string :=
  "A white scooter leaves Parking B at 20:14.".

Definition store : Store.t :=
  {| Store.cases :=
       <["canteen_cashbox_theft" :=
           ({["review_traffic_cctv"]} ∪ {["interview_witness"]} : gset string)]> ∅;
     Store.catalog :=
       <["review_traffic_cctv" := ["location"; "timeframe"]]>
       (<["interview_witness" := ["witness_name"]]>
       (<["check_vehicle_registration" := ["vehicle_number"]]> ∅));
     Store.tuples :=
       <[("canteen_cashbox_theft", "review_traffic_cctv",
          ["Parking B"; "20:10-20:20"]) := cctv_summary]>
       (<[("canteen_cashbox_theft", "interview_witness", ["Nisha"])
          := "I saw Niraj near the cashbox."]> ∅) |}.

(** A fuzzy matcher that never matches and reports a score. *)
Definition fuzzy (c a : string) (args : list string) : option string * nat :=
  (None, length args).

Definition db : CaseDB nat := Store.as_db store canon fuzzy.

Definition tools (mode : string) (flag : bool) : DetectiveTools nat :=
  {| _db := db; case_id := "canteen_cashbox_theft"; match_mode := mode;
     raise_errors := flag |}.

(** An instance with the raise flag off whose case id is not in the
    dataset. *)
Definition lost_tools : DetectiveTools nat :=
  set_case (tools "smart" false) "unknown_case".

(** Alias tables whose canonical values are not canonical themselves. *)
Definition chained_alias (cat : Canon.Category) : gmap string string :=
  match cat with
  | Canon.PersonName => <["a" := "b"]> (<["b" := "c"]> ∅)
  | _ => ∅
  end.

Definition no_alias (cat : Canon.Category) : gmap string string := ∅.

(** A second database for the same catalog, with other scripted data and
    another debug type. *)
Definition other_store : Store.t :=
  {| Store.cases :=
       <["canteen_cashbox_theft" := ({["review_traffic_cctv"]} : gset string)]> ∅;
     Store.catalog := Store.catalog store;
     Store.tuples :=
       <[("canteen_cashbox_theft", "review_traffic_cctv",
          ["Gate 2"; "09:00-09:30"]) := "Nothing unusual at Gate 2."]> ∅ |}.

Definition other_db : CaseDB string :=
  Store.as_db other_store (λ _ v, v) (λ _ _ _, (None, "no candidates")).

Definition other_tools : DetectiveTools string :=
  {| _db := other_db; case_id := "canteen_cashbox_theft";
     match_mode := "exact"; raise_errors := true |}.

Definition cctv_key : string * string * list string :=
  ("canteen_cashbox_theft", "review_traffic_cctv", ["Parking B"; "20:10-20:20"]).

Definition canonical_kwargs : gmap string string :=
  <["location" := "Parking B"]> {[ "timeframe" := "20:10-20:20" ]}.

Definition location_only : gmap string string := {[ "location" := "Parking B" ]}.

Definition off_script_kwargs : gmap string string :=
  <["location" := "parking-c"]> {[ "timeframe" := "8:10pm to 8:18 pm" ]}.

Definition witness_tool : StructuredTool (Dbg := nat) :=
  {| tool_name := "interview_witness";
     tool_func := _wrapped FIELD_ALIAS_CATEGORY "interview_witness";
     tool_handle_error := true |}.

(** The tools built for the instance. *)
Definition langchain_tools : list (StructuredTool (Dbg := nat)) :=
  default [] (as_langchain_tools FIELD_ALIAS_CATEGORY true
                (tools "smart" false) true).

End Demo.

(** ** Construction of an instance *)

(** [DetectiveTools.__init__], given the database that
    [CaseDB.from_file(dataset_path)] loaded.  [None] leaves a keyword
    argument at its default. *)
Definition __init__ {Dbg} (db : CaseDB Dbg) (case_id : string)
    (match_mode : option string) (raise_errors : option bool)
  : DetectiveTools Dbg :=
  Build_DetectiveTools Dbg db case_id (default "smart" match_mode)
    (default false raise_errors).

(** What a database call of [_call] may concern: the active case, the
    action of the call, a value the caller passed under a name with an
    alias category, and the key built from the caller's arguments. *)
Definition call_concerns {Dbg} (FIELD_ALIAS_CATEGORY : gmap string string)
    (self : DetectiveTools Dbg) (action : string)
    (kwargs : gmap string string) (c : DbCall) : Prop :=
  match c with
  | CallCaseExists x | CallActionsForCase x => x = case_id self
  | CallInputArgOrder a => a = action
  | CallCanonicalize cat v =>
      ∃ name, kwargs !! name = Some v ∧ FIELD_ALIAS_CATEGORY !! name = Some cat
  | CallLookupExact x a args | CallLookupFuzzy x a args =>
      x = case_id self ∧ a = action
      ∧ ∃ order, input_arg_order (_db self) action = Some order
                 ∧ canonical_args FIELD_ALIAS_CATEGORY (_db self) kwargs order
                   = inr args
  end.

(** The canonicalize calls that the argument loop makes for the names
    [names], all of them passed: one for each name with an alias category,
    in order. *)
Definition canon_calls (FIELD_ALIAS_CATEGORY : gmap string string)
    (kwargs : gmap string string) (names : list string) : list DbCall :=
  omap (λ name,
          cat ← truthy_category (FIELD_ALIAS_CATEGORY !! name);
          v ← kwargs !! name;
          Some (CallCanonicalize cat v))
       names.

(** ** Reading the culprit off the agent's answer *)

Module MakePreds.

(** Python's [str] methods, on ASCII text: a string is the sequence of its
    characters, each with a code below 128.  The definitions below agree
    with Python on such text only.  On other text Python also treats
    characters such as U+00A0 and U+2028 as whitespace, U+0085, U+2028 and
    U+2029 as line boundaries, and folds the case of letters beyond [A-Z];
    properties that depend on these definitions are stated for ASCII
    text. *)

(** Every character of the text is an ASCII character. *)
Fixpoint ascii_text (s : string) : bool :=
  match s with
  | EmptyString => true
  | String c s' => (nat_of_ascii c <? 128) && ascii_text s'
  end.

(** [c.isspace()] for an ASCII character: the tab, the line feed, the
    vertical tab, the form feed, the carriage return, the four separators
    28 to 31 and the space. *)
Definition py_isspace (c : ascii) : bool :=
  let n := nat_of_ascii c in
  ((9 <=? n) && (n <=? 13)) || ((28 <=? n) && (n <=? 31)) || (n =? 32).

(** The line boundaries of [str.splitlines] among ASCII characters; the
    boundaries U+0085, U+2028 and U+2029 are outside ASCII text. *)
Definition py_linebreak (c : ascii) : bool :=
  let n := nat_of_ascii c in
  ((10 <=? n) && (n <=? 13)) || ((28 <=? n) && (n <=? 30)).

Definition py_lower_char (c : ascii) : ascii :=
  let n := nat_of_ascii c in
  if (65 <=? n) && (n <=? 90) then ascii_of_nat (n + 32) else c.

(** [s.lower()] for ASCII text: the letters [A-Z] are folded and every
    other character is kept. *)
Fixpoint py_lower (s : string) : string :=
  match s with
  | EmptyString => EmptyString
  | String c s' => String (py_lower_char c) (py_lower s')
  end.

Fixpoint py_lstrip (s : string) : string :=
  match s with
  | EmptyString => EmptyString
  | String c s' => if py_isspace c then py_lstrip s' else s
  end.

Fixpoint py_rstrip (s : string) : string :=
  match s with
  | EmptyString => EmptyString
  | String c s' =>
      match py_rstrip s' with
      | EmptyString => if py_isspace c then EmptyString else String c EmptyString
      | r => String c r
      end
  end.

(** [s.strip()] *)
Definition py_strip (s : string) : string := py_rstrip (py_lstrip s).

Definition carriage_return : ascii := ascii_of_nat 13.
Definition line_feed : ascii := ascii_of_nat 10.

Definition newline : string := String line_feed EmptyString.

(** What follows a line boundary [c] before [s']: a carriage return
    directly followed by a line feed is one boundary. *)
Definition after_break (c : ascii) (s' : string) : string :=
  if Ascii.eqb c carriage_return then
    match s' with
    | String d s'' => if Ascii.eqb d line_feed then s'' else s'
    | EmptyString => s'
    end
  else s'.

(** [s.splitlines()]: the lines without their boundaries.  A carriage
    return directly followed by a line feed is one boundary, and a boundary
    at the very end opens no further line. *)
Fixpoint py_splitlines (s : string) : list string :=
  match s with
  | EmptyString => []
  | String c s' =>
      if py_linebreak c then
        EmptyString ::
          (if Ascii.eqb c carriage_return then
             match s' with
             | String d s'' =>
                 if Ascii.eqb d line_feed then py_splitlines s''
                 else py_splitlines s'
             | EmptyString => py_splitlines s'
             end
           else py_splitlines s')
      else
        match py_splitlines s' with
        | [] => [String c EmptyString]
        | l :: ls => String c l :: ls
        end
  end.

(** [s.split(":", 1)[-1]]: what follows the first colon, or all of [s]
    when it has no colon. *)
Fixpoint after_first_colon (s : string) : option string :=
  match s with
  | EmptyString => None
  | String c s' => if Ascii.eqb c ":" then Some s' else after_first_colon s'
  end.

Definition split_colon_last (s : string) : string :=
  default s (after_first_colon s).

Definition is_empty (s : string) : bool :=
  match s with EmptyString => true | _ => false end.

(** The list [lines] of [extract_culprit]: the stripped lines of the
    output that are not blank. *)
Definition stripped_lines (output : string) : list string :=
  omap (λ l, if is_empty (py_strip l) then None else Some (py_strip l))
       (py_splitlines output).

(** The first loop of [extract_culprit], over the lines from the last to
    the first. *)
Fixpoint verdict_of (reversed_lines : list string) : option string :=
  match reversed_lines with
  | [] => None
  | line :: rest =>
      let lower := py_lower line in
      if String.prefix "final culprit" lower
      then Some (py_strip (split_colon_last line))
      else if String.prefix "culprit" lower
      then Some (py_strip (split_colon_last line))
      else verdict_of rest
  end.

Definition extract_culprit (output : string) (suspects : list string) : string :=
  let lines := stripped_lines output in
  match verdict_of (reverse lines) with
  | Some culprit => culprit
  | None =>
      match find (λ s, contains (py_lower s) (py_lower output)) suspects with
      | Some s => s
      | None => py_strip output
      end
  end.

(** No line boundary occurs in the string. *)
Fixpoint one_line (s : string) : bool :=
  match s with
  | EmptyString => true
  | String c s' => negb (py_linebreak c) && one_line s'
  end.

(** The last character of the string is whitespace. *)
Fixpoint trailing_space (s : string) : bool :=
  match s with
  | EmptyString => false
  | String c EmptyString => py_isspace c
  | String _ s' => trailing_space s'
  end.

(** No colon occurs in the string. *)
Fixpoint colon_free (s : string) : bool :=
  match s with
  | EmptyString => true
  | String c s' => negb (Ascii.eqb c ":") && colon_free s'
  end.

(** [l] occurs in [s]. *)
Definition occurs_in (l s : string) : Prop := ∃ a b, s = a +:+ l +:+ b.

(** A text whose last line is [line], after any earlier text, with or
    without a final line feed. *)
Inductive ends_with_line (line : string) : string → Prop :=
  | only_line ending :
      ending = EmptyString ∨ ending = newline →
      ends_with_line line (line +:+ ending)
  | last_line pre ending :
      ending = EmptyString ∨ ending = newline →
      ends_with_line line (pre +:+ newline +:+ line +:+ ending).

End MakePreds.

(** ** More calls on the small dataset *)

Module DemoMore.

Definition fresh_tools : DetectiveTools nat :=
  __init__ Demo.db "canteen_cashbox_theft" None None.

Definition strict_tools : DetectiveTools nat :=
  __init__ Demo.db "unknown_case" None (Some true).

Definition kwargs_with_note : gmap string string :=
  <["note" := "seen twice"]> Demo.canonical_kwargs.

(** A catalog that declares an argument the tool method does not have. *)
Definition mismatched_store : Store.t :=
  {| Store.cases :=
       <["canteen_cashbox_theft" := ({["interview_witness"]} : gset string)]> ∅;
     Store.catalog := <["interview_witness" := ["witness_name"; "shift"]]> ∅;
     Store.tuples := ∅ |}.

Definition mismatched_tools : DetectiveTools nat :=
  __init__ (Store.as_db mismatched_store (λ _ v, v) Demo.fuzzy)
    "canteen_cashbox_theft" None None.

Definition answer : string :=
  "The scooter points to one person." +:+ MakePreds.newline
  +:+ "FINAL CULPRIT: Niraj the Volunteer " +:+ MakePreds.newline.

Definition vague_answer : string := "  It was probably NISHA. ".

End DemoMore.

(** * Properties of the wrapper *)

Lemma value_bind {A B} (m : Logged A) (k : A → Logged B) :
  value (m ≫= k) = value (k (value m)).
Proof.
  destruct m as [a t1]. unfold value, mbind, Logged_bind. simpl.
  by destruct (k a).
Qed.

Lemma calls_bind {A B} (m : Logged A) (k : A → Logged B) :
  calls (m ≫= k) = calls m ++ calls (k (value m)).
Proof.
  destruct m as [a t1]. unfold calls, value, mbind, Logged_bind. simpl.
  by destruct (k a).
Qed.

Section CallFacts.
Context {Dbg : Type}.
Variable FIELD_ALIAS_CATEGORY : gmap string string.
Local Abbreviation call := (_call FIELD_ALIAS_CATEGORY).
Local Abbreviation collect := (collect_args FIELD_ALIAS_CATEGORY).
Local Abbreviation key := (canonical_args FIELD_ALIAS_CATEGORY).

Implicit Types (self : DetectiveTools Dbg) (db : CaseDB Dbg).
Implicit Types (kwargs : gmap string string) (names order args : list string).

(** *** The argument loop *)

Lemma collect_args_value db kwargs names acc :
  value (collect db kwargs names acc) =
    match key db kwargs names with
    | inl missing => inl missing
    | inr l => inr (acc ++ l)
    end.
Proof.
  revert acc. induction names as [|name rest IH]; intros acc; simpl.
  - by rewrite app_nil_r.
  - destruct (kwargs !! name) as [v|] eqn:Hv; [|done].
    rewrite value_bind, IH. unfold canon_field.
    destruct (truthy_category _) as [cat|]; simpl;
      destruct (key db kwargs rest); by rewrite <- ?app_assoc.
Qed.

Lemma collect_args_calls db kwargs names acc :
  Forall (λ c, is_lookup c = false) (calls (collect db kwargs names acc)).
Proof.
  revert acc. induction names as [|name rest IH]; intros acc; simpl.
  - constructor.
  - destruct (kwargs !! name) as [v|]; [|constructor].
    rewrite calls_bind. apply Forall_app. split; [|apply IH].
    destruct (truthy_category _); repeat constructor.
Qed.

(** The per-field canonicalization of the wrapper is idempotent when the
    database's canonicalizer is; a field without a category is passed on
    unchanged. *)
Lemma canon_field_idempotent db name v :
  (∀ cat x, canonicalize db cat (canonicalize db cat x) = canonicalize db cat x) →
  canon_field FIELD_ALIAS_CATEGORY db name
    (canon_field FIELD_ALIAS_CATEGORY db name v)
  = canon_field FIELD_ALIAS_CATEGORY db name v.
Proof.
  intros Hidemp. unfold canon_field.
  by destruct (truthy_category _).
Qed.

Lemma canonical_args_missing db kwargs names missing :
  key db kwargs names = inl missing →
  missing ∈ names ∧ kwargs !! missing = None.
Proof.
  induction names as [|name rest IH]; simpl; [done|].
  destruct (kwargs !! name) as [v|] eqn:Hv.
  - destruct (key db kwargs rest); [|done].
    intros [= <-]. destruct IH as [? ?]; [done|]. split; [by right|done].
  - intros [= <-]. split; [by left|done].
Qed.

Lemma canonical_args_complete db kwargs names l :
  key db kwargs names = inr l →
  Forall2 (λ name a, ∃ v, kwargs !! name = Some v ∧ a = canon_field FIELD_ALIAS_CATEGORY db name v)
          names l.
Proof.
  revert l. induction names as [|name rest IH]; simpl; intros l.
  - intros [= <-]. constructor.
  - destruct (kwargs !! name) as [v|] eqn:Hv; [|done].
    destruct (key db kwargs rest) as [|l']; [done|].
    intros [= <-]. constructor; eauto.
Qed.

Lemma canonical_args_absent db kwargs names name :
  name ∈ names → kwargs !! name = None →
  ∃ missing, key db kwargs names = inl missing.
Proof.
  intros Hin Hnone. induction names as [|n rest IH]; [by apply elem_of_nil in Hin|].
  simpl. destruct (kwargs !! n) as [v|] eqn:Hv; [|eauto].
  apply elem_of_cons in Hin as [->|Hin]; [congruence|].
  destruct (IH Hin) as [m ->]. eauto.
Qed.

(** *** The wrapper, flattened

    The result and the database calls of [_call], branch by branch. *)

Lemma call_run self action kw kwargs :
  let db := _db self in
  let c := case_id self in
  let flag := effective_flag self kw in
  call self action kw kwargs =
    if negb (case_exists db c)
    then (_maybe_error flag MSG_UNKNOWN_CASE, [CallCaseExists c]) else
    match input_arg_order db action with
    | None => (_maybe_error flag MSG_UNKNOWN_ACTION,
               [CallCaseExists c; CallInputArgOrder action])
    | Some order =>
        if negb (bool_decide (action ∈ actions_for_case db c))
        then (_maybe_error flag MSG_NOT_ENABLED, validation_calls self action) else
        let pre := validation_calls self action
                     ++ calls (collect db kwargs order []) in
        match key db kwargs order with
        | inl missing =>
            (_maybe_error flag (MSG_MISSING_ARGUMENT missing order), pre)
        | inr args =>
            match lookup_exact db c action args with
            | Some r => (Returned r, pre ++ [CallLookupExact c action args])
            | None =>
                if String.eqb (match_mode self) "exact"
                then (_maybe_error flag MSG_NO_MATCH_EXACT,
                      pre ++ [CallLookupExact c action args])
                else
                  (match (lookup_fuzzy db c action args).1 with
                   | Some r => Returned r
                   | None => _maybe_error flag MSG_NO_MATCH_SMART
                   end,
                   pre ++ [CallLookupExact c action args;
                           CallLookupFuzzy c action args])
            end
        end
    end.
Proof.
  intros db c flag. unfold _call. fold db c.
  replace (match kw with Some b => b | None => raise_errors self end)
    with flag by (by destruct kw).
  unfold db_case_exists, db_input_arg_order, db_actions_for_case,
    db_lookup_exact, db_lookup_fuzzy.
  cbn. destruct (case_exists db c); cbn; [|done].
  destruct (input_arg_order db action) as [order|]; cbn; [|done].
  destruct (bool_decide _); cbn; [|done].
  pose proof (collect_args_value db kwargs order []) as Hv.
  unfold value, calls in *.
  destruct (collect db kwargs order []) as [built t]. simpl in Hv. subst built.
  destruct (key db kwargs order) as [missing|args]; cbn.
  { by rewrite app_nil_r. }
  destruct (lookup_exact db c action args) as [r|]; cbn; [done|].
  destruct (String.eqb (match_mode self) "exact"); cbn; [done|].
  destruct (lookup_fuzzy db c action args) as [[r|] dbg]; cbn; done.
Qed.

(** *** The verdict of a call *)

Lemma call_value self action kw kwargs :
  value (call self action kw kwargs)
    = deliver (effective_flag self kw) (verdict FIELD_ALIAS_CATEGORY self action kwargs).
Proof.
  rewrite call_run. unfold verdict. cbn zeta.
  repeat (case_match; simpl; try done).
Qed.

Lemma verdict_failure_inv self action kwargs m :
  verdict FIELD_ALIAS_CATEGORY self action kwargs = Failure m →
  ∃ cls, class_message cls m
    ∧ (cls = MissingArgument →
       ∃ order missing,
         input_arg_order (_db self) action = Some order
         ∧ key (_db self) kwargs order = inl missing
         ∧ m = MSG_MISSING_ARGUMENT missing order).
Proof.
  unfold verdict. repeat case_match; intros [= <-].
  all: eexists; (split; [constructor|]); first [done|intros _; eauto 10].
Qed.

Lemma verdict_failure_class self action kwargs m :
  verdict FIELD_ALIAS_CATEGORY self action kwargs = Failure m → ∃ cls, class_message cls m.
Proof. intros (cls & ? & _)%verdict_failure_inv. eauto. Qed.
End CallFacts.

Lemma class_message_functional cls1 cls2 m :
  class_message cls1 m → class_message cls2 m → cls1 = cls2.
Proof.
  intros H1 H2. destruct H1; inversion H2; try reflexivity; exfalso;
    match goal with H : _ = _ :> string |- _ => cbv in H; discriminate H end.
Qed.

Lemma class_message_constant cls m m' :
  cls ≠ MissingArgument → class_message cls m → class_message cls m' → m = m'.
Proof. intros Hcls H1 H2. destruct H1; inversion H2; done. Qed.

Lemma maybe_error_inj b1 b2 m1 m2 :
  _maybe_error b1 m1 = _maybe_error b2 m2 → b1 = b2 ∧ m1 = m2.
Proof. destruct b1, b2; simpl; intros [= ->]; done. Qed.

Lemma maybe_error_text b m : text (_maybe_error b m) = m.
Proof. by destruct b. Qed.

Lemma canonical_args_missing_indep {Dbg Dbg'} FAC (db : CaseDB Dbg)
    (db' : CaseDB Dbg') (kwargs : gmap string string) names missing :
  canonical_args FAC db kwargs names = inl missing →
  canonical_args FAC db' kwargs names = inl missing.
Proof.
  induction names as [|name rest IH]; simpl; [done|].
  destruct (kwargs !! name) as [v|]; [|done].
  destruct (canonical_args FAC db kwargs rest); [|done].
  intros [= <-]. by rewrite IH.
Qed.

Lemma collect_args_map_debug {Dbg Dbg'} FAC (g : Dbg → Dbg') (db : CaseDB Dbg)
    (kwargs : gmap string string) names acc :
  collect_args FAC (map_debug g db) kwargs names acc
    = collect_args FAC db kwargs names acc.
Proof.
  revert acc. induction names as [|name rest IH]; intros acc; simpl; [done|].
  destruct (kwargs !! name) as [v|]; [|done].
  destruct (truthy_category _); simpl; by rewrite IH.
Qed.

Lemma canonical_args_map_debug {Dbg Dbg'} FAC (g : Dbg → Dbg') (db : CaseDB Dbg)
    (kwargs : gmap string string) names :
  canonical_args FAC (map_debug g db) kwargs names
    = canonical_args FAC db kwargs names.
Proof.
  induction names as [|name rest IH]; simpl; [done|].
  destruct (kwargs !! name) as [v|]; [|done]. by rewrite IH.
Qed.

Section Claims.
Context {Dbg : Type}.
Variable FIELD_ALIAS_CATEGORY : gmap string string.
Local Abbreviation call := (_call FIELD_ALIAS_CATEGORY).
Local Abbreviation collect := (collect_args FIELD_ALIAS_CATEGORY).
Local Abbreviation key := (canonical_args FIELD_ALIAS_CATEGORY).

Implicit Types (self : DetectiveTools Dbg) (db : CaseDB Dbg).
Implicit Types (kwargs : gmap string string) (names order args : list string).

(** C4.  When the active case id does not exist, the call yields the
    UnknownCase outcome whatever the action name and the arguments are:
    the unknown-case message, delivered under the effective flag.  It is
    the outcome of no other failure class, and the only database call made
    is the existence check. *)
Theorem unknown_case_first self action kw kwargs :
  case_exists (_db self) (case_id self) = false →
  value (call self action kw kwargs)
    = _maybe_error (effective_flag self kw) MSG_UNKNOWN_CASE
  ∧ (∀ cls m b, cls ≠ UnknownCase → class_message cls m →
       value (call self action kw kwargs) ≠ _maybe_error b m)
  ∧ calls (call self action kw kwargs) = [CallCaseExists (case_id self)].
Proof.
  intros Hcase. rewrite call_run. cbn zeta. rewrite Hcase. simpl.
  split_and!; [done| |done].
  intros cls m b Hcls Hm [_ <-]%maybe_error_inj.
  apply Hcls. eapply class_message_functional; [done|constructor].
Qed.

(** C5.  For an existing case and an action that the catalog knows but the
    case does not enable, the call yields the ActionNotEnabledForCase
    outcome, and not the UnknownAction outcome. *)
Theorem disabled_action_not_unknown self action kw kwargs order :
  case_exists (_db self) (case_id self) = true →
  input_arg_order (_db self) action = Some order →
  action ∉ actions_for_case (_db self) (case_id self) →
  value (call self action kw kwargs)
    = _maybe_error (effective_flag self kw) MSG_NOT_ENABLED
  ∧ (∀ b, value (call self action kw kwargs)
            ≠ _maybe_error b MSG_UNKNOWN_ACTION).
Proof.
  intros Hcase Horder Hdis. rewrite call_run. cbn zeta.
  rewrite Hcase, Horder, bool_decide_eq_false_2 by done. simpl.
  split; [done|]. by intros b [_ ?]%maybe_error_inj.
Qed.

(** C6.  For an existing case and an enabled, cataloged action, when a
    required argument name is absent from the named arguments, the call
    yields the MissingArgument outcome.  Its message names the first
    absent required argument and lists the required argument names, and
    is built from nothing else: an instance over any other database with
    the same argument names for the action gives the same text.  Neither
    the exact nor the fuzzy lookup is called. *)
Theorem missing_argument_reported self action kw kwargs order name :
  case_exists (_db self) (case_id self) = true →
  input_arg_order (_db self) action = Some order →
  action ∈ actions_for_case (_db self) (case_id self) →
  name ∈ order → kwargs !! name = None →
  ∃ missing,
    missing ∈ order ∧ kwargs !! missing = None
    ∧ value (call self action kw kwargs)
        = _maybe_error (effective_flag self kw)
            (MSG_MISSING_ARGUMENT missing order)
    ∧ Forall (λ c, is_lookup c = false) (calls (call self action kw kwargs))
    ∧ ∀ Dbg' (self' : DetectiveTools Dbg') kw',
        case_exists (_db self') (case_id self') = true →
        input_arg_order (_db self') action = Some order →
        action ∈ actions_for_case (_db self') (case_id self') →
        text (value (_call FIELD_ALIAS_CATEGORY self' action kw' kwargs))
          = MSG_MISSING_ARGUMENT missing order.
Proof.
  intros Hcase Horder Hen Hin Hnone.
  destruct (canonical_args_absent FIELD_ALIAS_CATEGORY (_db self) kwargs
              order name Hin Hnone) as [missing Hkey].
  destruct (canonical_args_missing _ _ _ _ _ Hkey) as [Hmin Hmnone].
  exists missing. rewrite call_run. cbn zeta.
  rewrite Hcase, Horder, bool_decide_eq_true_2, Hkey by done. simpl.
  split_and!; try done.
  - repeat (constructor; [done|]). apply collect_args_calls.
  - intros Dbg' self' kw' Hcase' Horder' Hen'. rewrite call_run. cbn zeta.
    rewrite Hcase', Horder', bool_decide_eq_true_2 by done.
    rewrite (canonical_args_missing_indep _ _ (_db self') _ _ _ Hkey).
    simpl. apply maybe_error_text.
Qed.

(** C3.  A call that passes validation and has all its arguments makes
    its first lookup with [lookup_exact], on the key built from the
    caller's arguments.  With match mode [exact] that is the only lookup:
    a hit is returned and a miss yields the exact-mode no-match outcome.
    With match mode [smart] a hit of the exact lookup is returned with no
    further lookup, and a miss is followed by exactly one [lookup_fuzzy]
    call on the same key, whose response decides the result.  In mode
    [exact] no call of any kind reaches [lookup_fuzzy], and in mode [smart]
    a [lookup_fuzzy] call occurs only right after an exact lookup of the
    same key that missed. *)
Theorem match_mode_switch self action kw kwargs :
  (∀ order args,
     case_exists (_db self) (case_id self) = true →
     input_arg_order (_db self) action = Some order →
     action ∈ actions_for_case (_db self) (case_id self) →
     key (_db self) kwargs order = inr args →
     ∃ pre,
       Forall (λ x, is_lookup x = false) pre
       ∧ (match_mode self = "exact" →
          calls (call self action kw kwargs)
            = pre ++ [CallLookupExact (case_id self) action args]
          ∧ value (call self action kw kwargs)
            = match lookup_exact (_db self) (case_id self) action args with
              | Some r => Returned r
              | None => _maybe_error (effective_flag self kw) MSG_NO_MATCH_EXACT
              end)
       ∧ (match_mode self = "smart" →
          match lookup_exact (_db self) (case_id self) action args with
          | Some r =>
              calls (call self action kw kwargs)
                = pre ++ [CallLookupExact (case_id self) action args]
              ∧ value (call self action kw kwargs) = Returned r
          | None =>
              calls (call self action kw kwargs)
                = pre ++ [CallLookupExact (case_id self) action args;
                          CallLookupFuzzy (case_id self) action args]
              ∧ value (call self action kw kwargs)
                = match (lookup_fuzzy (_db self) (case_id self) action args).1 with
                  | Some r => Returned r
                  | None =>
                      _maybe_error (effective_flag self kw) MSG_NO_MATCH_SMART
                  end
          end))
  ∧ (match_mode self = "exact" →
     Forall (λ c, is_lookup_fuzzy c = false) (calls (call self action kw kwargs))
     ∧ ∀ order args,
         case_exists (_db self) (case_id self) = true →
         input_arg_order (_db self) action = Some order →
         action ∈ actions_for_case (_db self) (case_id self) →
         key (_db self) kwargs order = inr args →
         lookup_exact (_db self) (case_id self) action args = None →
         value (call self action kw kwargs)
           = _maybe_error (effective_flag self kw) MSG_NO_MATCH_EXACT)
  ∧ (match_mode self = "smart" →
     ∀ c a args,
       CallLookupFuzzy c a args ∈ calls (call self action kw kwargs) →
       lookup_exact (_db self) c a args = None
       ∧ ∃ pre,
           calls (call self action kw kwargs)
             = pre ++ [CallLookupExact c a args; CallLookupFuzzy c a args]
           ∧ Forall (λ x, is_lookup x = false) pre).
Proof.
  assert (Hpre : ∀ order,
    Forall (λ x, is_lookup x = false)
      (validation_calls self action
         ++ calls (collect (_db self) kwargs order []))).
  { intros order. apply Forall_app.
    split; [repeat constructor|apply collect_args_calls]. }
  assert (Hfz : ∀ l, Forall (λ x, is_lookup x = false) l →
                     Forall (λ x, is_lookup_fuzzy x = false) l).
  { intros l Hl. eapply Forall_impl; [exact Hl|]. intros x.
    unfold is_lookup. by intros [_ ?]%orb_false_iff. }
  split; [|split].
  - intros order args Hcase Horder Hen Hkey.
    exists (validation_calls self action
              ++ calls (collect (_db self) kwargs order [])).
    split; [apply Hpre|]. split; intros Hmode.
    + rewrite call_run. cbn zeta.
      rewrite Hcase, Horder, bool_decide_eq_true_2, Hkey, Hmode by done.
      cbn [negb]. by destruct (lookup_exact _ _ _ _).
    + rewrite call_run. cbn zeta.
      rewrite Hcase, Horder, bool_decide_eq_true_2, Hkey, Hmode by done.
      cbn [negb]. by destruct (lookup_exact _ _ _ _).
  - intros Hmode. split.
    + rewrite call_run. cbn zeta. rewrite Hmode.
      repeat case_match; cbn [snd calls];
        repeat first
          [ apply Hfz, Hpre
          | apply Hfz, collect_args_calls
          | apply Forall_app; split
          | by unfold validation_calls; repeat constructor ].
    + intros order args Hcase Horder Hen Hkey Hmiss.
      rewrite call_run. cbn zeta.
      rewrite Hcase, Horder, bool_decide_eq_true_2, Hkey, Hmiss, Hmode by done.
      done.
  - intros Hmode c a args Hin.
    assert (Hnot : ∀ l, Forall (λ x, is_lookup_fuzzy x = false) l →
                        CallLookupFuzzy c a args ∉ l).
    { intros l Hl Hl'. rewrite Forall_forall in Hl. by specialize (Hl _ Hl'). }
    rewrite call_run in Hin |- *. cbn zeta in *. rewrite Hmode in Hin |- *.
    change (String.eqb "smart" "exact") with false in *.
    repeat case_match; cbn [snd calls] in *;
      try solve [ exfalso; eapply Hnot; [|exact Hin];
        repeat first
          [ apply Hfz, Hpre
          | apply Forall_app; split
          | by unfold validation_calls; repeat constructor ] ].
    all: apply elem_of_app in Hin as [Hin|Hin];
      [exfalso; eapply Hnot; [|exact Hin]; apply Hfz, Hpre|].
    all: apply elem_of_cons in Hin as [?|Hin]; [done|].
    all: apply list_elem_of_singleton in Hin as [= -> -> ->].
    all: split; [done|]; eexists; split; [reflexivity|apply Hpre].
Qed.

(** C7.  The flag a call works with is the per-call override when one
    is given and the instance flag otherwise.  In each of the six failure
    classes, on every input that produces it, the call returns the failure
    message as a string when that flag is false and raises a
    [ToolException] carrying the same message when it is true.  The six
    conditions are spelled out: unknown case; unknown action; action not
    enabled; a declared argument left out; exact lookup missed in mode
    [exact]; exact and fuzzy lookup missed in another mode.  A call raises
    nothing else: whatever it raises is the message of a failure class and
    the flag it works with is true.  The override acts as the instance flag
    would. *)
Theorem failure_delivery self action kw kwargs :
  let db := _db self in
  let c := case_id self in
  let flag := match kw with Some b => b | None => raise_errors self end in
  let fails_with (m : string) :=
    value (call self action kw kwargs)
      = (if flag then Raised m else Returned m) in
  (case_exists db c = false → fails_with MSG_UNKNOWN_CASE)
  ∧ (case_exists db c = true → input_arg_order db action = None →
     fails_with MSG_UNKNOWN_ACTION)
  ∧ (∀ order,
       case_exists db c = true → input_arg_order db action = Some order →
       action ∉ actions_for_case db c →
       fails_with MSG_NOT_ENABLED)
  ∧ (∀ order missing,
       case_exists db c = true → input_arg_order db action = Some order →
       action ∈ actions_for_case db c →
       key db kwargs order = inl missing →
       fails_with (MSG_MISSING_ARGUMENT missing order))
  ∧ (∀ order args,
       case_exists db c = true → input_arg_order db action = Some order →
       action ∈ actions_for_case db c →
       key db kwargs order = inr args →
       lookup_exact db c action args = None →
       match_mode self = "exact" →
       fails_with MSG_NO_MATCH_EXACT)
  ∧ (∀ order args,
       case_exists db c = true → input_arg_order db action = Some order →
       action ∈ actions_for_case db c →
       key db kwargs order = inr args →
       lookup_exact db c action args = None →
       match_mode self ≠ "exact" →
       (lookup_fuzzy db c action args).1 = None →
       fails_with MSG_NO_MATCH_SMART)
  ∧ (∀ m, value (call self action kw kwargs) = Raised m →
       flag = true ∧ ∃ cls, class_message cls m)
  ∧ (∀ b, call self action (Some b) kwargs
          = call (set_raise_errors self b) action None kwargs).
Proof.
  intros db c flag fails_with. subst fails_with. cbn beta.
  assert (Hflag : effective_flag self kw = flag) by (by destruct kw).
  split_and!.
  - intros Hcase. rewrite call_run. cbn zeta. fold db c.
    by rewrite Hflag, Hcase.
  - intros Hcase Horder. rewrite call_run. cbn zeta. fold db c.
    by rewrite Hflag, Hcase, Horder.
  - intros order Hcase Horder Hdis. rewrite call_run. cbn zeta. fold db c.
    by rewrite Hflag, Hcase, Horder, bool_decide_eq_false_2.
  - intros order missing Hcase Horder Hen Hkey.
    rewrite call_run. cbn zeta. fold db c.
    by rewrite Hflag, Hcase, Horder, bool_decide_eq_true_2, Hkey.
  - intros order args Hcase Horder Hen Hkey Hmiss Hmode.
    rewrite call_run. cbn zeta. fold db c.
    by rewrite Hflag, Hcase, Horder, bool_decide_eq_true_2, Hkey, Hmiss, Hmode.
  - intros order args Hcase Horder Hen Hkey Hmiss Hmode Hfuzzy.
    rewrite call_run. cbn zeta. fold db c.
    rewrite Hflag, Hcase, Horder, bool_decide_eq_true_2, Hkey, Hmiss by done.
    apply String.eqb_neq in Hmode. by rewrite Hmode, Hfuzzy.
  - intros m. rewrite call_value, Hflag.
    destruct (verdict _ _ _ _) as [r|m0] eqn:Hv; [done|]. simpl.
    destruct flag; simpl; intros [= <-].
    split; [done|]. by eapply verdict_failure_class.
  - intros b. by rewrite !call_run.
Qed.

(** C1 as amended.  The result of a call is either the response that the
    exact or the fuzzy lookup gave for the caller's own canonicalized
    arguments, or one of the fixed failure texts; the only failure text
    with varying parts is the missing-argument text, built from an
    argument name the caller left out and the action's argument names.
    The debug component of [lookup_fuzzy] has no influence on the result
    or on the database calls.  Two instances over any two databases that
    declare the same argument names for the action raise the same text
    whenever they fail in the same class. *)
Theorem failures_carry_no_ground_truth self action kw kwargs :
  ((∃ order args r,
      input_arg_order (_db self) action = Some order
      ∧ key (_db self) kwargs order = inr args
      ∧ (lookup_exact (_db self) (case_id self) action args = Some r
         ∨ (lookup_fuzzy (_db self) (case_id self) action args).1 = Some r)
      ∧ value (call self action kw kwargs) = Returned r)
   ∨ (∃ cls m,
        class_message cls m
        ∧ value (call self action kw kwargs)
            = _maybe_error (effective_flag self kw) m
        ∧ (cls = MissingArgument →
           ∃ order missing,
             input_arg_order (_db self) action = Some order
             ∧ missing ∈ order ∧ kwargs !! missing = None
             ∧ m = MSG_MISSING_ARGUMENT missing order)))
  ∧ (∀ Dbg' (g : Dbg → Dbg'),
       _call FIELD_ALIAS_CATEGORY (with_db self (map_debug g (_db self)))
         action kw kwargs
       = call self action kw kwargs)
  ∧ (∀ Dbg' (self' : DetectiveTools Dbg') cls m m',
       input_arg_order (_db self') action = input_arg_order (_db self) action →
       class_message cls m → class_message cls m' →
       value (call self action (Some true) kwargs) = Raised m →
       value (_call FIELD_ALIAS_CATEGORY self' action (Some true) kwargs)
         = Raised m' →
       m = m').
Proof.
  split_and!.
  - rewrite call_run. cbn zeta.
    destruct (case_exists _ _); simpl;
      [|right; exists UnknownCase; eexists; split_and!; [constructor|done|done]].
    destruct (input_arg_order _ _) as [order|] eqn:Horder; simpl;
      [|right; exists UnknownAction; eexists; split_and!; [constructor|done|done]].
    destruct (bool_decide _); simpl;
      [|right; exists ActionNotEnabledForCase; eexists;
        split_and!; [constructor|done|done]].
    destruct (key _ _ _) as [missing|args] eqn:Hkey; simpl.
    { right. exists MissingArgument. eexists. split_and!; [constructor|done|].
      intros _. destruct (canonical_args_missing _ _ _ _ _ Hkey).
      by exists order, missing. }
    destruct (lookup_exact _ _ _ _) as [r|] eqn:Hex; simpl.
    { left. exists order, args, r. auto. }
    destruct (String.eqb _ _); simpl;
      [right; exists NoMatchExact; eexists; split_and!; [constructor|done|done]|].
    destruct (lookup_fuzzy _ _ _ _).1 as [r|] eqn:Hfz; simpl.
    { left. exists order, args, r. auto. }
    right. exists NoMatchFuzzy. eexists. split_and!; [constructor|done|done].
  - intros Dbg' g. rewrite !call_run. cbn zeta.
    change (effective_flag (with_db self _) kw) with (effective_flag self kw).
    change (validation_calls (with_db self _) action)
      with (validation_calls self action).
    cbn [_db case_id match_mode with_db map_debug case_exists input_arg_order
         actions_for_case lookup_exact lookup_fuzzy].
    destruct (case_exists _ _); [|done].
    destruct (input_arg_order _ _) as [order|]; [|done].
    destruct (bool_decide _); [|done]. cbn [negb].
    fold (map_debug g (_db self)).
    rewrite canonical_args_map_debug, collect_args_map_debug.
    destruct (key _ _ _) as [missing|args]; [done|].
    destruct (lookup_exact _ _ _ _); [done|].
    destruct (String.eqb _ _); [done|].
    by destruct (lookup_fuzzy _ _ _ _) as [[r|] d].
  - intros Dbg' self' cls m m' Horder Hm Hm'.
    rewrite !call_value. simpl.
    destruct (verdict _ self _ _) as [|m0] eqn:Hv; [done|].
    destruct (verdict _ self' _ _) as [|m0'] eqn:Hv'; [done|].
    simpl. intros [= ->] [= ->].
    apply verdict_failure_inv in Hv as (cls1 & Hm1 & Hv).
    apply verdict_failure_inv in Hv' as (cls2 & Hm2 & Hv').
    pose proof (class_message_functional _ _ _ Hm1 Hm) as ->.
    pose proof (class_message_functional _ _ _ Hm2 Hm') as ->.
    destruct (decide (cls = MissingArgument)) as [->|Hcls].
    + destruct Hv as (order & missing & Ho & Hk & ->); [done|].
      destruct Hv' as (order' & missing' & Ho' & Hk' & ->); [done|].
      rewrite Horder, Ho in Ho'. simplify_eq.
      rewrite (canonical_args_missing_indep _ _ (_db self') _ _ _ Hk) in Hk'.
      by simplify_eq.
    + by eapply class_message_constant.
Qed.
End Claims.

Section Wrapped.
Context {Dbg : Type}.
Variable FIELD_ALIAS_CATEGORY : gmap string string.

Implicit Types (self : DetectiveTools Dbg).

Lemma set_raise_errors_restore self b :
  set_raise_errors (set_raise_errors self b) (raise_errors self) = self.
Proof. by destruct self. Qed.

Lemma invoke_tool_is_call name self args kwargs r :
  invoke_tool FIELD_ALIAS_CATEGORY name self args kwargs = Completed r →
  ∃ kwargs', r = _call FIELD_ALIAS_CATEGORY self name None kwargs'.
Proof.
  unfold invoke_tool. repeat case_match; try done; intros [= <-];
    match goal with H : String.eqb name _ = true |- _ =>
      apply String.eqb_eq in H; subst name end;
    eexists; reflexivity.
Qed.

Lemma wrapped_run name args kwargs self :
  _wrapped FIELD_ALIAS_CATEGORY name args kwargs self
    = (invoke_tool FIELD_ALIAS_CATEGORY name (set_raise_errors self true)
         args kwargs, self).
Proof.
  unfold _wrapped, try_finally. f_equal. apply set_raise_errors_restore.
Qed.

(** Binding the arguments does not depend on the instance: on another
    instance the same invocation calls the wrapper with the same named
    arguments. *)
Lemma invoke_tool_on_instance name self self' args kwargs r :
  invoke_tool FIELD_ALIAS_CATEGORY name self args kwargs = Completed r →
  ∃ kwargs',
    r = _call FIELD_ALIAS_CATEGORY self name None kwargs'
    ∧ invoke_tool FIELD_ALIAS_CATEGORY name self' args kwargs
      = Completed (_call FIELD_ALIAS_CATEGORY self' name None kwargs').
Proof.
  unfold invoke_tool. repeat case_match; try done; intros [= <-];
    match goal with H : String.eqb name _ = true |- _ =>
      apply String.eqb_eq in H; subst name end;
    eexists; split; reflexivity.
Qed.

Lemma invoke_tool_type_error name self self' args kwargs :
  invoke_tool FIELD_ALIAS_CATEGORY name self args kwargs = RaisedTypeError →
  invoke_tool FIELD_ALIAS_CATEGORY name self' args kwargs = RaisedTypeError.
Proof. unfold invoke_tool. repeat case_match; done. Qed.

(** C10.  Every tool built by [as_langchain_tools] leaves the instance as
    it was before the invocation, so the raise flag has its earlier value
    afterwards, whether the method returned, raised a [ToolException], or
    the call failed to bind its arguments.  During the invocation the
    method runs on the instance with [raise_errors] true, whatever the
    flag was before: the tool makes the database calls the method makes on
    the instance as it is and resolves to the same response or failure
    message, but every failure is raised as a [ToolException] with its
    message and a returned string is always a response.  In particular an
    unknown case id raises the unknown-case message also on an instance
    whose flag is false. *)
Theorem wrapped_restores_flag self0 handle tools t args kwargs self :
  as_langchain_tools FIELD_ALIAS_CATEGORY true self0 handle = Some tools →
  t ∈ tools →
  let raising := {| _db := _db self; case_id := case_id self;
                    match_mode := match_mode self; raise_errors := true |} in
  (tool_func t args kwargs self).2 = self
  ∧ raise_errors (tool_func t args kwargs self).2 = raise_errors self
  ∧ (tool_func t args kwargs self).1
      = invoke_tool FIELD_ALIAS_CATEGORY (tool_name t) raising args kwargs
  ∧ ((tool_func t args kwargs self).1 = RaisedTypeError
     ↔ invoke_tool FIELD_ALIAS_CATEGORY (tool_name t) self args kwargs
       = RaisedTypeError)
  ∧ ∀ r, (tool_func t args kwargs self).1 = Completed r →
      ∃ kwargs',
        invoke_tool FIELD_ALIAS_CATEGORY (tool_name t) self args kwargs
          = Completed (_call FIELD_ALIAS_CATEGORY self (tool_name t) None kwargs')
        ∧ calls r
          = calls (_call FIELD_ALIAS_CATEGORY self (tool_name t) None kwargs')
        ∧ value r
          = match verdict FIELD_ALIAS_CATEGORY self (tool_name t) kwargs' with
            | Response s => Returned s
            | Failure m => Raised m
            end
        ∧ (∀ m, value (_call FIELD_ALIAS_CATEGORY self (tool_name t)
                         (Some true) kwargs') = Raised m →
                value r = Raised m)
        ∧ (case_exists (_db self) (case_id self) = false →
           value r = Raised MSG_UNKNOWN_CASE).
Proof.
  intros Htools Ht raising.
  unfold as_langchain_tools in Htools. cbn [negb] in Htools.
  apply (inj Some) in Htools. rewrite <- Htools in Ht. clear Htools.
  apply list_elem_of_omap in Ht as (name & _ & Hname).
  case_bool_decide; [|done]. injection Hname as <-.
  cbn [tool_func tool_name]. rewrite wrapped_run. cbn [fst snd].
  change (set_raise_errors self true) with raising.
  split_and!; try done.
  - split; apply invoke_tool_type_error.
  - intros r Hr.
    destruct (invoke_tool_on_instance _ _ self _ _ _ Hr) as (kwargs' & -> & Hself).
    exists kwargs'. split; [exact Hself|].
    assert (Hverdict : verdict FIELD_ALIAS_CATEGORY raising name kwargs'
                       = verdict FIELD_ALIAS_CATEGORY self name kwargs')
      by reflexivity.
    split_and!.
    + rewrite !call_run. cbn zeta.
      change (validation_calls raising name) with (validation_calls self name).
      subst raising. cbn [_db case_id match_mode]. by repeat case_match.
    + rewrite call_value, Hverdict.
      by destruct (verdict _ self _ _).
    + intros m. rewrite !call_value, Hverdict.
      by destruct (verdict _ self _ _).
    + intros Hcase. rewrite call_value, Hverdict. unfold verdict.
      by rewrite Hcase.
Qed.
End Wrapped.

Section ExactMatch.
Context {Dbg : Type}.
Variable FIELD_ALIAS_CATEGORY : gmap string string.
Local Abbreviation call := (_call FIELD_ALIAS_CATEGORY).
Local Abbreviation key := (canonical_args FIELD_ALIAS_CATEGORY).

Lemma canonical_args_fixed (db : CaseDB Dbg) (kwargs : gmap string string)
    (order args : list string) :
  Forall2 (λ name a, kwargs !! name = Some a
                     ∧ canon_field FIELD_ALIAS_CATEGORY db name a = a)
          order args →
  key db kwargs order = inr args.
Proof.
  induction 1 as [|name a order args [Hname Hfix] _ IH]; simpl; [done|].
  by rewrite Hname, IH, Hfix.
Qed.

(** C2.  Over a store of scripted tuples: a call that names an existing
    case, an enabled action of the catalog, and exactly the canonical
    argument values of one scripted tuple returns that tuple's response,
    in either match mode and under either raise flag.  And the exact path
    returns a response exactly when the key built from the canonicalized
    arguments is the key of a scripted tuple of that case and action; the
    response is then that tuple's.  The exact path is observed with the
    raise flag set, where a returned string can only be a response, and by
    the absence of a fuzzy lookup among the database calls. *)
Theorem exact_match_reflexive (st : Store.t) canon
    (fuzzy : string → string → list string → option string * Dbg)
    (c mode : string) (flag : bool) action kw (kwargs : gmap string string) :
  let self := {| _db := Store.as_db st canon fuzzy; case_id := c;
                 match_mode := mode; raise_errors := flag |} in
  (∀ acts order args resp,
     Store.cases st !! c = Some acts → action ∈ acts →
     Store.catalog st !! action = Some order →
     Store.tuples st !! (c, action, args) = Some resp →
     Forall2 (λ name a, kwargs !! name = Some a
                        ∧ canon_field FIELD_ALIAS_CATEGORY (_db self) name a = a)
             order args →
     value (call self action kw kwargs) = Returned resp)
  ∧ (∀ resp,
       (value (call self action (Some true) kwargs) = Returned resp
        ∧ Forall (λ x, is_lookup_fuzzy x = false)
            (calls (call self action (Some true) kwargs)))
       ↔ ∃ acts order args,
           Store.cases st !! c = Some acts ∧ action ∈ acts
           ∧ Store.catalog st !! action = Some order
           ∧ key (_db self) kwargs order = inr args
           ∧ Store.tuples st !! (c, action, args) = Some resp).
Proof.
  intros self. split.
  - intros acts order args resp Hcase Hen Hcat Htuple Hargs.
    apply canonical_args_fixed in Hargs.
    rewrite call_run. cbn zeta.
    cbn [self _db case_id Store.as_db case_exists input_arg_order
         actions_for_case lookup_exact] in *.
    unfold Store.caseExists, Store.inputArgOrder, Store.actionsForCase,
      Store.lookupExact.
    rewrite Hcase, Hcat. cbn [default].
    rewrite !bool_decide_eq_true_2 by eauto. cbn [negb].
    by rewrite Hargs, Htuple.
  - intros resp. rewrite call_run. cbn zeta.
    cbn [self _db case_id Store.as_db case_exists input_arg_order
         actions_for_case lookup_exact effective_flag default].
    unfold Store.caseExists, Store.inputArgOrder, Store.actionsForCase,
      Store.lookupExact.
    destruct (Store.cases st !! c) as [acts|] eqn:Hcase; cbn [default].
    2: { rewrite bool_decide_eq_false_2 by (by intros [? ?]).
         cbn. split; [by intros [[=] _]|]. by intros (? & ? & ? & [=] & _). }
    rewrite bool_decide_eq_true_2 by eauto. cbn [negb].
    destruct (Store.catalog st !! action) as [order|] eqn:Hcat.
    2: { cbn. split; [by intros [[=] _]|]. by intros (? & ? & ? & _ & _ & [=] & _). }
    case_bool_decide as Hen; cbn [negb].
    2: { cbn. split; [by intros [[=] _]|].
         intros (? & ? & ? & ? & ? & _). by simplify_eq. }
    destruct (key _ kwargs order) as [missing|args] eqn:Hkey.
    { cbn. split; [by intros [[=] _]|].
      intros (? & ? & ? & ? & _ & ? & ? & _). simplify_eq. congruence. }
    destruct (Store.tuples st !! (c, action, args)) as [r|] eqn:Htuple.
    { cbn [fst snd value calls]. split.
      - intros [[= <-] _]. by exists acts, order, args.
      - intros (? & ? & ? & ? & _ & ? & ? & ?). simplify_eq.
        split; [congruence|].
        apply Forall_app. split; [|by repeat constructor].
        apply Forall_app. split; [by repeat constructor|].
        eapply Forall_impl; [apply collect_args_calls|].
        intros d. unfold is_lookup. by intros [_ ?]%orb_false_iff. }
    split.
    + cbn [match_mode self]. destruct (String.eqb mode "exact"); cbn.
      * by intros [[=] _].
      * intros [_ Hcalls]. apply Forall_app in Hcalls as [_ Hcalls].
        by apply Forall_cons in Hcalls as [_ [? _]%Forall_cons].
    + intros (? & ? & ? & ? & _ & ? & ? & ?). simplify_eq. congruence.
Qed.
End ExactMatch.

(** * Properties of canonicalization *)

Module CanonFacts.
Import Canon.

(** *** Characters *)






(** *** Names *)




(** *** Plates and phone numbers *)




(** *** Timeframes *)









(** *** The normalization pass *)






(** The three timeframes of the spec's example.  The normalization pass
    maps ["8:10pm-8:18pm"] and ["8:10 PM to 8:18 PM"] to ["20:10-20:18"]
    and leaves ["20:10-20:20"] as it is, so the key the three inputs get
    is decided by the entries of the timeframe alias table. *)
Lemma timeframe_examples alias :
  normalize Timeframe "8:10pm-8:18pm" = Some "20:10-20:18"
  ∧ normalize Timeframe "8:10 PM to 8:18 PM" = Some "20:10-20:18"
  ∧ normalize Timeframe "20:10-20:20" = Some "20:10-20:20"
  ∧ ((canonicalize alias Timeframe "8:10pm-8:18pm" = Some "20:10-20:20"
      ∧ canonicalize alias Timeframe "20:10-20:20" = Some "20:10-20:20"
      ∧ canonicalize alias Timeframe "8:10 PM to 8:18 PM" = Some "20:10-20:20")
     ↔ (alias Timeframe !! "20:10-20:18" = Some "20:10-20:20"
        ∧ (alias Timeframe !! "20:10-20:20" = None
           ∨ alias Timeframe !! "20:10-20:20" = Some "20:10-20:20"))).
Proof.
  assert (normalize Timeframe "8:10pm-8:18pm" = Some "20:10-20:18") as H1
    by (by vm_compute).
  assert (normalize Timeframe "8:10 PM to 8:18 PM" = Some "20:10-20:18") as H2
    by (by vm_compute).
  assert (normalize Timeframe "20:10-20:20" = Some "20:10-20:20") as H3
    by (by vm_compute).
  split; [exact H1|]. split; [exact H2|]. split; [exact H3|].
  unfold canonicalize. rewrite H1, H2, H3. simpl.
  destruct (alias Timeframe !! "20:10-20:18") as [v|] eqn:Hv;
    destruct (alias Timeframe !! "20:10-20:20") as [w|] eqn:Hw; simpl.
  - split.
    + intros ([= ->] & [= ->] & _). auto.
    + intros ([= ->] & [[=]|[= ->]]). auto.
  - split.
    + intros ([= ->] & _). auto.
    + intros ([= ->] & _). auto.
  - split.
    + intros ([=] & _).
    + intros ([=] & _).
  - split.
    + intros ([=] & _).
    + intros ([=] & _).
Qed.
End CanonFacts.

(** * The properties on the small dataset *)

Module DemoFacts.
Import Demo.

Local Abbreviation call := (_call FIELD_ALIAS_CATEGORY).

(** The claim C1 as worded fails: a call that matches returns the scripted
    response text itself. *)
Lemma scripted_response_is_returned :
  Store.tuples store !! cctv_key = Some cctv_summary
  ∧ value (review_traffic_cctv FIELD_ALIAS_CATEGORY (tools "smart" false)
             "parking-b" "8:10pm to 8:18 pm")
      = Returned cctv_summary
  ∧ contains cctv_summary
      (text (value (review_traffic_cctv FIELD_ALIAS_CATEGORY
                      (tools "smart" false) "parking-b" "8:10pm to 8:18 pm")))
      = true.
Proof. by vm_compute. Qed.

(** The exact-mode no-match text spells a sample time range, which is a
    literal of the source and the same over every database; on the small
    dataset it is also the timeframe of the scripted CCTV tuple. *)
Lemma no_match_exact_spells_a_range :
  contains "20:10-20:20" MSG_NO_MATCH_EXACT = true
  ∧ Store.tuples store !! cctv_key = Some cctv_summary
  ∧ value (interview_witness FIELD_ALIAS_CATEGORY (tools "exact" false) "Ram")
      = Returned MSG_NO_MATCH_EXACT.
Proof. by vm_compute. Qed.

Lemma failures_carry_no_ground_truth_witness :
  input_arg_order (_db other_tools) "review_traffic_cctv"
    = input_arg_order (_db (tools "smart" false)) "review_traffic_cctv"
  ∧ value (call (tools "smart" false) "review_traffic_cctv" (Some true)
             location_only)
      = Raised (MSG_MISSING_ARGUMENT "timeframe" ["location"; "timeframe"])
  ∧ value (call other_tools "review_traffic_cctv" (Some true) location_only)
      = Raised (MSG_MISSING_ARGUMENT "timeframe" ["location"; "timeframe"])
  ∧ MSG_MISSING_ARGUMENT "timeframe" ["location"; "timeframe"]
      = MSG_MISSING_ARGUMENT "timeframe" ["location"; "timeframe"].
Proof.
  assert (H0 : input_arg_order (_db other_tools) "review_traffic_cctv"
               = input_arg_order (_db (tools "smart" false)) "review_traffic_cctv")
    by (vm_compute; reflexivity).
  assert (H1 : value (call (tools "smart" false) "review_traffic_cctv"
                        (Some true) location_only)
               = Raised (MSG_MISSING_ARGUMENT "timeframe" ["location"; "timeframe"]))
    by (vm_compute; reflexivity).
  assert (H2 : value (call other_tools "review_traffic_cctv" (Some true)
                        location_only)
               = Raised (MSG_MISSING_ARGUMENT "timeframe" ["location"; "timeframe"]))
    by (vm_compute; reflexivity).
  split_and!; [exact H0|exact H1|exact H2|].
  exact (proj2 (proj2 (failures_carry_no_ground_truth FIELD_ALIAS_CATEGORY
                         (tools "smart" false) "review_traffic_cctv"
                         (Some true) location_only))
           string other_tools MissingArgument _ _ H0
           (msg_missing _ _) (msg_missing _ _) H1 H2).
Defined.

Lemma exact_match_reflexive_witness :
  Store.cases store !! "canteen_cashbox_theft"
    = Some ({["review_traffic_cctv"]} ∪ {["interview_witness"]})
  ∧ Store.tuples store !! cctv_key = Some cctv_summary
  ∧ value (call (tools "smart" false) "review_traffic_cctv" None
             canonical_kwargs)
      = Returned cctv_summary.
Proof.
  assert (H1 : Store.cases store !! "canteen_cashbox_theft"
               = Some ({["review_traffic_cctv"]} ∪ {["interview_witness"]}))
    by (vm_compute; reflexivity).
  assert (H2 : Store.tuples store !! cctv_key = Some cctv_summary)
    by (vm_compute; reflexivity).
  split_and!; [exact H1|exact H2|].
  refine (proj1 (exact_match_reflexive FIELD_ALIAS_CATEGORY store canon fuzzy
                   "canteen_cashbox_theft" "smart" false
                   "review_traffic_cctv" None canonical_kwargs)
            _ ["location"; "timeframe"] ["Parking B"; "20:10-20:20"]
            cctv_summary H1 _ _ H2 _).
  - apply (bool_decide_unpack _). vm_compute. exact I.
  - vm_compute. reflexivity.
  - repeat constructor; vm_compute; reflexivity.
Defined.

Lemma match_mode_switch_witness :
  lookup_exact db "canteen_cashbox_theft" "review_traffic_cctv"
    ["parking-c"; "20:10-20:20"] = None
  ∧ (∃ pre,
       Forall (λ x, is_lookup x = false) pre
       ∧ calls (call (tools "exact" false) "review_traffic_cctv" None
                  off_script_kwargs)
         = pre ++ [CallLookupExact "canteen_cashbox_theft" "review_traffic_cctv"
                     ["parking-c"; "20:10-20:20"]]
       ∧ value (call (tools "exact" false) "review_traffic_cctv" None
                  off_script_kwargs)
         = Returned MSG_NO_MATCH_EXACT)
  ∧ (∃ pre,
       Forall (λ x, is_lookup x = false) pre
       ∧ calls (call (tools "smart" true) "review_traffic_cctv" None
                  off_script_kwargs)
         = pre ++ [CallLookupExact "canteen_cashbox_theft" "review_traffic_cctv"
                     ["parking-c"; "20:10-20:20"];
                   CallLookupFuzzy "canteen_cashbox_theft" "review_traffic_cctv"
                     ["parking-c"; "20:10-20:20"]]
       ∧ value (call (tools "smart" true) "review_traffic_cctv" None
                  off_script_kwargs)
         = Raised MSG_NO_MATCH_SMART).
Proof.
  assert (Hmiss : ∀ mode flag,
            lookup_exact (_db (tools mode flag)) (case_id (tools mode flag))
              "review_traffic_cctv" ["parking-c"; "20:10-20:20"] = None)
    by (intros; vm_compute; reflexivity).
  assert (Hcase : ∀ mode flag,
            case_exists (_db (tools mode flag)) (case_id (tools mode flag)) = true)
    by (intros; vm_compute; reflexivity).
  assert (Horder : ∀ mode flag,
            input_arg_order (_db (tools mode flag)) "review_traffic_cctv"
            = Some ["location"; "timeframe"])
    by (intros; vm_compute; reflexivity).
  assert (Hen : ∀ mode flag,
            "review_traffic_cctv"
            ∈ actions_for_case (_db (tools mode flag)) (case_id (tools mode flag))).
  { intros. apply (bool_decide_unpack _). vm_compute. exact I. }
  assert (Hkey : ∀ mode flag,
            canonical_args FIELD_ALIAS_CATEGORY (_db (tools mode flag))
              off_script_kwargs ["location"; "timeframe"]
            = inr ["parking-c"; "20:10-20:20"])
    by (intros; vm_compute; reflexivity).
  split; [exact (Hmiss "exact" false)|]. split.
  - destruct (proj1 (match_mode_switch FIELD_ALIAS_CATEGORY
                       (tools "exact" false) "review_traffic_cctv" None
                       off_script_kwargs)
                ["location"; "timeframe"] ["parking-c"; "20:10-20:20"]
                (Hcase _ _) (Horder _ _) (Hen _ _) (Hkey _ _))
      as (pre & Hpre & Hexact & _).
    destruct (Hexact eq_refl) as [Hcalls Hvalue].
    rewrite Hmiss in Hvalue.
    exists pre. split; [exact Hpre|]. split; [exact Hcalls|exact Hvalue].
  - destruct (proj1 (match_mode_switch FIELD_ALIAS_CATEGORY
                       (tools "smart" true) "review_traffic_cctv" None
                       off_script_kwargs)
                ["location"; "timeframe"] ["parking-c"; "20:10-20:20"]
                (Hcase _ _) (Horder _ _) (Hen _ _) (Hkey _ _))
      as (pre & Hpre & _ & Hsmart).
    specialize (Hsmart eq_refl). rewrite Hmiss in Hsmart.
    destruct Hsmart as [Hcalls Hvalue].
    exists pre. split; [exact Hpre|]. split; [exact Hcalls|exact Hvalue].
Defined.

Lemma failure_delivery_witness :
  case_exists db "unknown_case" = false
  ∧ value (call (set_case (tools "smart" false) "unknown_case")
             "interview_witness" None {[ "witness_name" := "Nisha" ]})
      = Returned MSG_UNKNOWN_CASE
  ∧ value (call (set_case (tools "smart" false) "unknown_case")
             "interview_witness" (Some true) {[ "witness_name" := "Nisha" ]})
      = Raised MSG_UNKNOWN_CASE
  ∧ value (call (tools "exact" true) "review_traffic_cctv" (Some false)
             location_only)
      = Returned (MSG_MISSING_ARGUMENT "timeframe" ["location"; "timeframe"]).
Proof.
  assert (H : case_exists (_db (set_case (tools "smart" false) "unknown_case"))
                (case_id (set_case (tools "smart" false) "unknown_case"))
              = false) by (vm_compute; reflexivity).
  split; [exact H|]. split_and!.
  - exact (proj1 (failure_delivery FIELD_ALIAS_CATEGORY
                    (set_case (tools "smart" false) "unknown_case")
                    "interview_witness" None {[ "witness_name" := "Nisha" ]}) H).
  - exact (proj1 (failure_delivery FIELD_ALIAS_CATEGORY
                    (set_case (tools "smart" false) "unknown_case")
                    "interview_witness" (Some true)
                    {[ "witness_name" := "Nisha" ]}) H).
  - refine (proj1 (proj2 (proj2 (proj2
              (failure_delivery FIELD_ALIAS_CATEGORY (tools "exact" true)
                 "review_traffic_cctv" (Some false) location_only))))
              ["location"; "timeframe"] "timeframe" _ _ _ _).
    + vm_compute. reflexivity.
    + vm_compute. reflexivity.
    + apply (bool_decide_unpack _). vm_compute. exact I.
    + vm_compute. reflexivity.
Defined.

Lemma unknown_case_first_witness :
  case_exists db "unknown_case" = false
  ∧ value (call (set_case (tools "smart" false) "unknown_case")
             "interview_witness" None {[ "witness_name" := "Nisha" ]})
      = Returned MSG_UNKNOWN_CASE.
Proof.
  assert (H : case_exists (_db (set_case (tools "smart" false) "unknown_case"))
                (case_id (set_case (tools "smart" false) "unknown_case"))
              = false) by (vm_compute; reflexivity).
  split; [exact H|].
  exact (proj1 (unknown_case_first FIELD_ALIAS_CATEGORY
                  (set_case (tools "smart" false) "unknown_case")
                  "interview_witness" None {[ "witness_name" := "Nisha" ]} H)).
Defined.

Lemma disabled_action_not_unknown_witness :
  input_arg_order db "check_vehicle_registration" = Some ["vehicle_number"]
  ∧ value (call (tools "smart" true) "check_vehicle_registration" None
             {[ "vehicle_number" := "GJ05-XY-7788" ]})
      = Raised MSG_NOT_ENABLED.
Proof.
  assert (H : input_arg_order (_db (tools "smart" true))
                "check_vehicle_registration" = Some ["vehicle_number"])
    by (vm_compute; reflexivity).
  split; [exact H|].
  refine (proj1 (disabled_action_not_unknown FIELD_ALIAS_CATEGORY
                   (tools "smart" true) "check_vehicle_registration" None
                   {[ "vehicle_number" := "GJ05-XY-7788" ]}
                   ["vehicle_number"] _ H _)).
  - vm_compute. reflexivity.
  - apply (bool_decide_eq_false_1 _). vm_compute. reflexivity.
Defined.

Lemma missing_argument_reported_witness :
  location_only !! "timeframe" = None
  ∧ ∃ missing,
      value (call (tools "smart" false) "review_traffic_cctv" None location_only)
        = Returned (MSG_MISSING_ARGUMENT missing ["location"; "timeframe"])
      ∧ Forall (λ c, is_lookup c = false)
          (calls (call (tools "smart" false) "review_traffic_cctv" None
                    location_only)).
Proof.
  assert (H : location_only !! "timeframe" = None) by (vm_compute; reflexivity).
  split; [exact H|].
  destruct (missing_argument_reported FIELD_ALIAS_CATEGORY
              (tools "smart" false) "review_traffic_cctv" None location_only
              ["location"; "timeframe"] "timeframe")
    as (missing & _ & _ & Hvalue & Hcalls & _).
  - vm_compute. reflexivity.
  - vm_compute. reflexivity.
  - apply (bool_decide_unpack _). vm_compute. exact I.
  - apply (bool_decide_unpack _). vm_compute. exact I.
  - exact H.
  - exists missing. split; [exact Hvalue|exact Hcalls].
Defined.

Lemma wrapped_restores_flag_witness :
  as_langchain_tools FIELD_ALIAS_CATEGORY true (tools "smart" false) true
    = Some langchain_tools
  ∧ witness_tool ∈ langchain_tools
  ∧ raise_errors lost_tools = false
  ∧ value (interview_witness FIELD_ALIAS_CATEGORY lost_tools "Ram")
      = Returned MSG_UNKNOWN_CASE
  ∧ (tool_func witness_tool ["Ram"] ∅ lost_tools).2 = lost_tools
  ∧ raise_errors (tool_func witness_tool ["Ram"] ∅ lost_tools).2 = false
  ∧ ∃ r, (tool_func witness_tool ["Ram"] ∅ lost_tools).1 = Completed r
         ∧ value r = Raised MSG_UNKNOWN_CASE.
Proof.
  assert (H : as_langchain_tools FIELD_ALIAS_CATEGORY true
                (tools "smart" false) true = Some langchain_tools)
    by reflexivity.
  assert (Hin : witness_tool ∈ langchain_tools).
  { unfold langchain_tools, as_langchain_tools. cbn [negb default].
    apply list_elem_of_omap. exists "interview_witness".
    split; [apply list_elem_of_here|].
    rewrite bool_decide_eq_true_2; [reflexivity|].
    apply (bool_decide_unpack _). vm_compute. exact I. }
  assert (Hcase : case_exists (_db lost_tools) (case_id lost_tools) = false)
    by (vm_compute; reflexivity).
  split; [exact H|]. split; [exact Hin|].
  split; [reflexivity|]. split; [vm_compute; reflexivity|].
  destruct (wrapped_restores_flag FIELD_ALIAS_CATEGORY
              (tools "smart" false) true langchain_tools
              witness_tool ["Ram"] ∅ lost_tools H Hin)
    as (Hframe & Hflag & Hrun & _ & Hraise).
  split; [exact Hframe|]. split; [exact Hflag|].
  assert (Hr : (tool_func witness_tool ["Ram"] ∅ lost_tools).1
               = Completed (interview_witness FIELD_ALIAS_CATEGORY
                              (set_raise_errors lost_tools true) "Ram"))
    by (rewrite Hrun; reflexivity).
  eexists. split; [exact Hr|].
  destruct (Hraise _ Hr) as (kwargs' & _ & _ & _ & _ & Hunknown).
  exact (Hunknown Hcase).
Defined.

(** Over alias tables that break the invariant, with a canonical value
    that is mapped further, canonicalizing twice differs from canonicalizing
    once. *)
Lemma chained_alias_not_idempotent :
  Canon.canonicalize chained_alias Canon.PersonName "a" = Some "b"
  ∧ Canon.canonicalize chained_alias Canon.PersonName "b" = Some "c"
  ∧ Canon.canonicalize chained_alias Canon.PersonName "b" ≠ Some "b".
Proof. split_and!; [by vm_compute|by vm_compute|]. vm_compute. by intros [=]. Qed.




(** Where the alias table has no entry for the normalized range, the
    12-hour inputs keep their own end time. *)
Lemma timeframe_without_alias :
  Canon.canonicalize no_alias Canon.Timeframe "8:10pm-8:18pm"
    = Some "20:10-20:18"
  ∧ Canon.canonicalize no_alias Canon.Timeframe "8:10 PM to 8:18 PM"
    = Some "20:10-20:18"
  ∧ Canon.canonicalize no_alias Canon.Timeframe "20:10-20:20"
    = Some "20:10-20:20"
  ∧ Canon.canonicalize no_alias Canon.Timeframe "8:10pm-8:18pm"
    ≠ Some "20:10-20:20".
Proof.
  split_and!; [by vm_compute|by vm_compute|by vm_compute|].
  vm_compute. by intros [=].
Qed.

(** With the entry that the small dataset holds for the normalized range,
    the three inputs get the one key. *)
Lemma timeframe_examples_on_dataset :
  alias Canon.Timeframe !! "20:10-20:18" = Some "20:10-20:20"
  ∧ alias Canon.Timeframe !! "20:10-20:20" = None
  ∧ Canon.canonicalize alias Canon.Timeframe "8:10pm-8:18pm"
    = Some "20:10-20:20"
  ∧ Canon.canonicalize alias Canon.Timeframe "20:10-20:20"
    = Some "20:10-20:20"
  ∧ Canon.canonicalize alias Canon.Timeframe "8:10 PM to 8:18 PM"
    = Some "20:10-20:20".
Proof.
  assert (H1 : alias Canon.Timeframe !! "20:10-20:18" = Some "20:10-20:20")
    by (vm_compute; reflexivity).
  assert (H2 : alias Canon.Timeframe !! "20:10-20:20" = None)
    by (vm_compute; reflexivity).
  split; [exact H1|]. split; [exact H2|].
  exact (proj2 (proj2 (proj2 (proj2 (CanonFacts.timeframe_examples alias))))
           (conj H1 (or_introl H2))).
Defined.
End DemoFacts.

(** * Further properties of the wrapper *)

Section CallMore.
Context {Dbg : Type}.
Variable FIELD_ALIAS_CATEGORY : gmap string string.
Local Abbreviation call := (_call FIELD_ALIAS_CATEGORY).
Local Abbreviation collect := (collect_args FIELD_ALIAS_CATEGORY).
Local Abbreviation key := (canonical_args FIELD_ALIAS_CATEGORY).

Implicit Types (self : DetectiveTools Dbg) (db : CaseDB Dbg).
Implicit Types (kwargs : gmap string string) (names order args : list string).

Lemma collect_args_ext db kwargs kwargs' names acc :
  (∀ name, name ∈ names → kwargs !! name = kwargs' !! name) →
  collect db kwargs names acc = collect db kwargs' names acc.
Proof.
  revert acc. induction names as [|name rest IH]; intros acc Hagree; [done|].
  simpl. rewrite <- (Hagree name) by (by left).
  destruct (kwargs !! name) as [v|]; [|done].
  destruct (truthy_category _); simpl; rewrite IH; try done;
    intros n Hn; apply Hagree; by right.
Qed.

Lemma canonical_args_ext db kwargs kwargs' names :
  (∀ name, name ∈ names → kwargs !! name = kwargs' !! name) →
  key db kwargs names = key db kwargs' names.
Proof.
  induction names as [|name rest IH]; intros Hagree; [done|].
  simpl. rewrite <- (Hagree name) by (by left).
  destruct (kwargs !! name) as [v|]; [|done].
  rewrite IH; [done|]. intros n Hn. apply Hagree. by right.
Qed.

(** X1.  A call reads the named arguments only at the argument names the
    catalog declares for the action: two calls whose named arguments agree
    there give the same result and make the same database calls, so
    further named arguments are ignored. *)
Theorem call_reads_declared_arguments_only self action kw kwargs kwargs' :
  (∀ order name, input_arg_order (_db self) action = Some order →
                 name ∈ order → kwargs !! name = kwargs' !! name) →
  _call FIELD_ALIAS_CATEGORY self action kw kwargs
  = _call FIELD_ALIAS_CATEGORY self action kw kwargs'.
Proof.
  intros Hagree. rewrite !call_run. cbn zeta.
  destruct (case_exists _ _); [|done]. cbn [negb].
  destruct (input_arg_order _ _) as [order|]; [|done].
  specialize (Hagree order).
  rewrite (canonical_args_ext _ kwargs kwargs') by eauto.
  rewrite (collect_args_ext _ kwargs kwargs') by eauto.
  done.
Qed.

(** X2.  Only the mode string [exact] switches the fuzzy fallback off: an
    instance with any other match mode behaves on every call as the same
    instance in mode [smart]. *)
Theorem other_modes_are_smart db (c mode : string) (flag : bool) action kw kwargs :
  mode ≠ "exact" →
  call {| _db := db; case_id := c; match_mode := mode; raise_errors := flag |}
       action kw kwargs
  = call {| _db := db; case_id := c; match_mode := "smart";
            raise_errors := flag |}
         action kw kwargs.
Proof.
  intros Hmode. rewrite !call_run. cbn zeta.
  cbn [_db case_id match_mode].
  apply String.eqb_neq in Hmode. rewrite Hmode.
  change (String.eqb "smart" "exact") with false.
  unfold effective_flag, validation_calls. done.
Qed.

(** X3.  The fuzzy fallback never overrides an exact match: when the call
    of an instance in mode [exact] returns a response (seen with the raise
    flag set), the same call returns that response in every match mode and
    under every raise flag, and makes the same database calls. *)
Theorem exact_match_in_every_mode db (c mode : string) (flag : bool)
    action kw kwargs r :
  value (call {| _db := db; case_id := c; match_mode := "exact";
                 raise_errors := true |} action None kwargs) = Returned r →
  call {| _db := db; case_id := c; match_mode := mode; raise_errors := flag |}
       action kw kwargs
  = (Returned r,
     calls (call {| _db := db; case_id := c; match_mode := "exact";
                    raise_errors := true |} action None kwargs)).
Proof.
  rewrite !call_run. cbn zeta. cbn [_db case_id match_mode].
  change (String.eqb "exact" "exact") with true.
  unfold effective_flag, validation_calls. cbn [default raise_errors].
  destruct (case_exists _ _); [|done]. cbn [negb].
  destruct (input_arg_order _ _) as [order|]; [|done].
  destruct (bool_decide _); [|done]. cbn [negb].
  destruct (key _ _ _) as [missing|args]; [done|].
  destruct (lookup_exact _ _ _ _) as [r'|]; [|done].
  cbn. by intros [= ->].
Qed.

(** X4.  For an existing case, an action name absent from the catalog
    yields the UnknownAction outcome whatever the named arguments are; the
    enabled actions of the case are not consulted, so the outcome is the
    same whether or not the case lists the name. *)
Theorem unknown_action_before_enablement self action kw kwargs :
  case_exists (_db self) (case_id self) = true →
  input_arg_order (_db self) action = None →
  call self action kw kwargs
  = (_maybe_error (effective_flag self kw) MSG_UNKNOWN_ACTION,
     [CallCaseExists (case_id self); CallInputArgOrder action]).
Proof.
  intros Hcase Horder. rewrite call_run. cbn zeta.
  by rewrite Hcase, Horder.
Qed.

Lemma truthy_category_Some (o : option string) cat :
  truthy_category o = Some cat → o = Some cat.
Proof. destruct o as [[|a s]|]; simpl; congruence. Qed.

Lemma collect_args_concerns db kwargs names acc :
  Forall (λ c, ∃ cat v name, c = CallCanonicalize cat v
                 ∧ kwargs !! name = Some v
                 ∧ FIELD_ALIAS_CATEGORY !! name = Some cat)
         (calls (collect db kwargs names acc)).
Proof.
  revert acc. induction names as [|name rest IH]; intros acc; simpl.
  - constructor.
  - destruct (kwargs !! name) as [v|] eqn:Hv; [|constructor].
    rewrite calls_bind. apply Forall_app. split; [|apply IH].
    destruct (truthy_category _) as [cat|] eqn:Hcat; [|constructor].
    apply truthy_category_Some in Hcat.
    repeat constructor. by exists cat, v, name.
Qed.

Lemma filter_no_lookup (l : list DbCall) :
  Forall (λ c, is_lookup c = false) l → List.filter is_lookup l = [].
Proof. induction 1 as [|x l Hx _ IH]; simpl; [done|]. by rewrite Hx. Qed.

(** X5.  Every database call of a wrapper call concerns the active case
    and the action of the call: the existence and enablement checks name
    the active case, the catalog is asked for the action alone, only
    values the caller passed are canonicalized, under the category of their
    argument name, and the exact and fuzzy lookups are made for the active
    case, the action, and the key built from the caller's arguments.  There
    are at most two lookups. *)
Theorem calls_concern_the_call self action kw kwargs :
  Forall (call_concerns FIELD_ALIAS_CATEGORY self action kwargs)
         (calls (call self action kw kwargs))
  ∧ length (List.filter is_lookup (calls (call self action kw kwargs))) ≤ 2.
Proof.
  assert (Hcanon : ∀ order,
    Forall (call_concerns FIELD_ALIAS_CATEGORY self action kwargs)
           (calls (collect (_db self) kwargs order []))).
  { intros order. eapply Forall_impl; [apply collect_args_concerns|].
    intros x (cat & v & name & -> & ? & ?). simpl. eauto. }
  assert (Hnone : ∀ order,
    List.filter is_lookup
      (validation_calls self action
         ++ calls (collect (_db self) kwargs order [])) = []).
  { intros order. rewrite List.filter_app.
    rewrite (filter_no_lookup (calls _)) by apply collect_args_calls.
    done. }
  rewrite call_run. cbn zeta.
  destruct (case_exists _ _); cbn [negb calls snd].
  2: { split; [by repeat constructor|simpl; lia]. }
  destruct (input_arg_order _ _) as [order|] eqn:Horder; cbn [calls snd].
  2: { split; [by repeat constructor|simpl; lia]. }
  destruct (bool_decide _); cbn [negb calls snd].
  2: { split; [by repeat constructor|simpl; lia]. }
  assert (Hval : Forall (call_concerns FIELD_ALIAS_CATEGORY self action kwargs)
                   (validation_calls self action)) by (by repeat constructor).
  destruct (key _ _ _) as [missing|args] eqn:Hkey; cbn [calls snd].
  { split; [apply Forall_app; auto|]. rewrite Hnone. simpl. lia. }
  assert (Hlook : ∀ x, (x = CallLookupExact (case_id self) action args
                        ∨ x = CallLookupFuzzy (case_id self) action args) →
                       call_concerns FIELD_ALIAS_CATEGORY self action kwargs x).
  { intros x [->| ->]; simpl; eauto 10. }
  destruct (lookup_exact _ _ _ _); cbn [calls snd];
    [|destruct (String.eqb _ _); cbn [calls snd]].
  all: split;
    [ rewrite !Forall_app; split_and!; auto; repeat constructor; auto
    | rewrite List.filter_app, Hnone; simpl; lia ].
Qed.

(** X15.  The argument loop canonicalizes in declared order and stops at
    the first declared name the caller left out.  When every declared name
    is passed, the key has one value per declared name and there is one
    canonicalize call for each name with an alias category.  When a name
    is missing, only names declared before it have been canonicalized. *)
Theorem argument_loop_stops_at_missing db kwargs order :
  match key db kwargs order with
  | inr args =>
      length args = length order
      ∧ calls (collect db kwargs order [])
        = canon_calls FIELD_ALIAS_CATEGORY kwargs order
  | inl missing =>
      ∃ before after,
        order = before ++ missing :: after
        ∧ Forall (λ name, is_Some (kwargs !! name)) before
        ∧ kwargs !! missing = None
        ∧ calls (collect db kwargs order [])
          = canon_calls FIELD_ALIAS_CATEGORY kwargs before
  end.
Proof.
  assert (Hgen : ∀ acc,
    match key db kwargs order with
    | inr args =>
        length args = length order
        ∧ calls (collect db kwargs order acc)
          = canon_calls FIELD_ALIAS_CATEGORY kwargs order
    | inl missing =>
        ∃ before after,
          order = before ++ missing :: after
          ∧ Forall (λ name, is_Some (kwargs !! name)) before
          ∧ kwargs !! missing = None
          ∧ calls (collect db kwargs order acc)
            = canon_calls FIELD_ALIAS_CATEGORY kwargs before
    end); [|apply Hgen].
  induction order as [|name rest IH]; intros acc; [done|].
  cbn [canonical_args collect_args].
  destruct (kwargs !! name) as [v|] eqn:Hv.
  - rewrite calls_bind. unfold canon_calls. cbn [omap list_omap].
    rewrite Hv. specialize (IH (acc ++ [canon_field FIELD_ALIAS_CATEGORY db name v])).
    unfold canon_field in IH |- *.
    destruct (truthy_category _) as [cat|] eqn:Hcat; cbn [mbind option_bind];
      cbn [value db_canonicalize mret Logged_ret fst calls snd] in *;
      destruct (key db kwargs rest) as [missing|args].
    + destruct IH as (before & after & -> & Hbefore & Hnone & ->).
      exists (name :: before), after. split_and!; try done.
      * constructor; eauto.
      * unfold canon_calls. cbn [omap list_omap]. by rewrite Hcat, Hv.
    + destruct IH as [Hlen ->]. split; [simpl; lia|done].
    + destruct IH as (before & after & -> & Hbefore & Hnone & ->).
      exists (name :: before), after. split_and!; try done.
      * constructor; eauto.
      * unfold canon_calls. cbn [omap list_omap]. by rewrite Hcat.
    + destruct IH as [Hlen ->]. split; [simpl; lia|done].
  - exists [], rest. split_and!; try done.
Qed.

Lemma no_lookup_among (l : list DbCall) :
  Forall (λ x, is_lookup x = false) l → ¬ Exists (λ x, is_lookup x = true) l.
Proof.
  intros Hall Hex. apply Exists_exists in Hex as (x & Hx & Hlook).
  rewrite Forall_forall in Hall. specialize (Hall x Hx). congruence.
Qed.

Lemma validation_calls_no_lookup self action :
  Forall (λ x, is_lookup x = false) (validation_calls self action).
Proof. unfold validation_calls. by repeat constructor. Qed.

(** X6.  Whatever message a call raises, the same call with the raise
    flag off returns that message as a string, and the message starts with
    one of two tags, [[error]] or [[no-match]], each followed by a space.
    The tag is [[no-match]] exactly when the call made a lookup. *)
Theorem failure_messages_are_tagged self action kw kwargs m :
  value (_call FIELD_ALIAS_CATEGORY self action kw kwargs) = Raised m →
  value (_call FIELD_ALIAS_CATEGORY self action (Some false) kwargs)
    = Returned m
  ∧ (String.prefix "[error] " m = true ∨ String.prefix "[no-match] " m = true)
  ∧ (String.prefix "[no-match] " m = true
     ↔ Exists (λ x, is_lookup x = true)
         (calls (_call FIELD_ALIAS_CATEGORY self action kw kwargs))).
Proof.
  assert (Hflag : ∀ b m0, _maybe_error b m0 = Raised m → b = true ∧ m0 = m).
  { intros [] m0; simpl; intros [= <-]; done. }
  assert (Hpre : ∀ order,
    Forall (λ x, is_lookup x = false)
      (validation_calls self action
         ++ calls (collect (_db self) kwargs order []))).
  { intros order. apply Forall_app.
    split; [apply validation_calls_no_lookup|apply collect_args_calls]. }
  rewrite !call_run. cbn zeta.
  change (effective_flag self (Some false)) with false.
  destruct (case_exists _ _); cbn [negb value calls fst snd].
  2: { intros [_ <-]%Hflag. split_and!; [done|by left|].
       split; [done|]. intros H. exfalso. revert H.
       apply no_lookup_among. by repeat constructor. }
  destruct (input_arg_order _ _) as [order|].
  2: { cbn [value calls fst snd]. intros [_ <-]%Hflag.
       split_and!; [done|by left|].
       split; [done|]. intros H. exfalso. revert H.
       apply no_lookup_among. by repeat constructor. }
  destruct (bool_decide _); cbn [negb value calls fst snd].
  2: { intros [_ <-]%Hflag. split_and!; [done|by left|].
       split; [done|]. intros H. exfalso. revert H.
       apply no_lookup_among, validation_calls_no_lookup. }
  destruct (key _ _ _) as [missing|args]; cbn [value calls fst snd].
  { intros [_ <-]%Hflag. split_and!; [done|by left|].
    split; [by vm_compute|]. intros H. exfalso. revert H.
    apply no_lookup_among, Hpre. }
  destruct (lookup_exact _ _ _ _) as [r|]; cbn [value calls fst snd]; [done|].
  destruct (String.eqb _ _); cbn [value calls fst snd].
  { intros [_ <-]%Hflag. split_and!; [done|by right|].
    split; [|done]. intros _. apply Exists_app. right. by left. }
  destruct (lookup_fuzzy _ _ _ _).1 as [r|]; [done|].
  intros [_ <-]%Hflag. split_and!; [done|by right|].
  split; [|done]. intros _. apply Exists_app. right. by left.
Qed.
End CallMore.

(** * Further properties of the tool functions *)

Section ToolsMore.
Context {Dbg : Type}.
Variable FIELD_ALIAS_CATEGORY : gmap string string.
Local Abbreviation call := (_call FIELD_ALIAS_CATEGORY).
Local Abbreviation key := (canonical_args FIELD_ALIAS_CATEGORY).

Implicit Types (self : DetectiveTools Dbg).

(** A tool method passes each of its parameters to the wrapper under the
    parameter's own name, with no override of the raise flag. *)
Lemma invoke_tool_kwargs name self args kwargs r :
  invoke_tool FIELD_ALIAS_CATEGORY name self args kwargs = Completed r →
  ∃ params kwargs',
    tool_params name = Some params
    ∧ r = call self name None kwargs'
    ∧ ∀ p, is_Some (kwargs' !! p) ↔ p ∈ params.
Proof.
  unfold invoke_tool.
  destruct (tool_params name) as [params|] eqn:Hparams; [|done].
  intros Hr. exists params.
  destruct (bind_arguments _ _ _) as [[|a [|b [|? ?]]]|]; try done;
    repeat (case_match; try done); injection Hr as <-;
    match goal with H : String.eqb name _ = true |- _ =>
      apply String.eqb_eq in H; subst name end;
    vm_compute in Hparams; injection Hparams as <-;
    eexists; (split; [reflexivity|]); (split; [reflexivity|]);
    intros p.
  all: rewrite ?lookup_insert_is_Some, ?lookup_singleton_is_Some.
  all: rewrite ?elem_of_cons, ?elem_of_nil.
  all: first
    [ split; [intros <-; by left|intros [->|[]]; done]
    | split;
      [ intros [<-|[_ <-]]; auto
      | intros [->|[->|[]]]; [by left|right; split; [discriminate|done]] ] ].
Qed.

Lemma canonical_args_present (db : CaseDB Dbg) (kwargs : gmap string string)
    (order : list string) :
  (∀ p, p ∈ order → is_Some (kwargs !! p)) →
  ∃ args, key db kwargs order = inr args.
Proof.
  induction order as [|name rest IH]; intros Hall; simpl; [eauto|].
  destruct (Hall name) as [v ->]; [by left|].
  destruct IH as [args ->]; [|eauto]. intros p Hp. apply Hall. by right.
Qed.

(** X7.  On an instance whose raise flag is off, which is how instances
    are built by default, no tool method raises a [ToolException]: whatever
    the arguments, the method returns a string. *)
Theorem tool_methods_return_by_default name self args kwargs r :
  raise_errors self = false →
  invoke_tool FIELD_ALIAS_CATEGORY name self args kwargs = Completed r →
  ∃ s, value r = Returned s.
Proof.
  intros Hflag Hr.
  apply invoke_tool_kwargs in Hr as (params & kwargs' & _ & -> & _).
  rewrite call_value. unfold effective_flag. cbn [default]. rewrite Hflag.
  destruct (verdict _ _ _ _); simpl; eauto.
Qed.

(** X8.  On an instance whose case id is unknown, every tool method ends
    in the UnknownCase outcome whatever its arguments are: it raises a
    [ToolException] with the unknown-case message when the raise flag is
    on and returns that message when it is off, after the existence check
    as its only database call. *)
Theorem tool_methods_on_unknown_case name self args kwargs r :
  case_exists (_db self) (case_id self) = false →
  invoke_tool FIELD_ALIAS_CATEGORY name self args kwargs = Completed r →
  r = (if raise_errors self then Raised MSG_UNKNOWN_CASE
       else Returned MSG_UNKNOWN_CASE,
       [CallCaseExists (case_id self)]).
Proof.
  intros Hcase Hr.
  apply invoke_tool_kwargs in Hr as (params & kwargs' & _ & -> & _).
  rewrite call_run. cbn zeta. rewrite Hcase. done.
Qed.

(** X9.  A tool method and the catalog must agree on argument names.  For
    an existing case and an enabled action: when every argument name the
    catalog declares for the action is a parameter of the method, the call
    reaches the exact lookup; when the catalog declares a name that is not
    a parameter of the method, the call ends in the MissingArgument outcome
    for such a name whatever values are passed, and no lookup is made. *)
Theorem tool_method_meets_catalog name self args kwargs r params order :
  invoke_tool FIELD_ALIAS_CATEGORY name self args kwargs = Completed r →
  tool_params name = Some params →
  case_exists (_db self) (case_id self) = true →
  input_arg_order (_db self) name = Some order →
  name ∈ actions_for_case (_db self) (case_id self) →
  ((∀ p, p ∈ order → p ∈ params) →
     ∃ key_args, CallLookupExact (case_id self) name key_args ∈ calls r)
  ∧ (∀ p, p ∈ order → p ∉ params →
     ∃ missing,
       missing ∈ order ∧ (missing ∉ params)
       ∧ value r = _maybe_error (raise_errors self)
                     (MSG_MISSING_ARGUMENT missing order)
       ∧ Forall (λ c, is_lookup c = false) (calls r)).
Proof.
  intros Hr Hparams Hcase Horder Hen.
  apply invoke_tool_kwargs in Hr as (params' & kwargs' & Hparams' & -> & Hdom).
  rewrite Hparams in Hparams'. injection Hparams' as <-.
  rewrite call_run. cbn zeta.
  rewrite Hcase, Horder, bool_decide_eq_true_2 by done. cbn [negb].
  split.
  - intros Hsub.
    destruct (canonical_args_present (_db self) kwargs' order) as [key_args ->].
    { intros p Hp. apply Hdom. auto. }
    exists key_args.
    destruct (lookup_exact _ _ _ _); [|destruct (String.eqb _ _)];
      cbn [calls snd]; rewrite elem_of_app; right; by left.
  - intros p Hp Hnot.
    destruct (canonical_args_absent FIELD_ALIAS_CATEGORY (_db self) kwargs'
                order p Hp) as [missing Hkey].
    { destruct (kwargs' !! p) eqn:Hp'; [|done].
      exfalso. apply Hnot, Hdom. eauto. }
    destruct (canonical_args_missing _ _ _ _ _ Hkey) as [Hin Hnone].
    rewrite Hkey. exists missing. cbn [value calls fst snd].
    split_and!; try done.
    + intros Hm. apply Hdom in Hm as [? Hm]. congruence.
    + apply Forall_app. split; [by repeat constructor|apply collect_args_calls].
Qed.

Lemma omap_guard_names (P : string → bool) (mk : string → StructuredTool (Dbg := Dbg))
    (names : list string) :
  (∀ n, tool_name (mk n) = n) →
  tool_name <$> omap (λ n, if P n then Some (mk n) else None) names
  = List.filter P names.
Proof.
  intros Hmk. induction names as [|n names IH]; [done|].
  cbn [omap list_omap List.filter]. destruct (P n); [|done].
  rewrite fmap_cons, Hmk. by f_equal.
Qed.

(** X10.  The tools that [as_langchain_tools] builds are named by exactly
    the tool method names that are keys of the loaded catalog, in the order
    of the method list and without repetition; a catalog action with no
    tool method gets no tool. *)
Theorem langchain_tool_names self handle tools :
  as_langchain_tools FIELD_ALIAS_CATEGORY true self handle = Some tools →
  tool_name <$> tools
  = List.filter (λ n, bool_decide (n ∈ actions_catalog (_db self)))
      _TOOL_METHOD_NAMES
  ∧ NoDup (tool_name <$> tools)
  ∧ ∀ t, t ∈ tools →
      tool_name t ∈ _TOOL_METHOD_NAMES
      ∧ tool_name t ∈ actions_catalog (_db self).
Proof.
  unfold as_langchain_tools. cbn [negb]. intros Htools.
  apply (inj Some) in Htools. subst tools.
  pose proof (omap_guard_names
                (λ n, bool_decide (n ∈ actions_catalog (_db self)))
                (λ name, {| tool_name := name;
                            tool_func := _wrapped FIELD_ALIAS_CATEGORY name;
                            tool_handle_error := handle |})
                _TOOL_METHOD_NAMES (λ _, eq_refl)) as Hnames.
  split_and!.
  - exact Hnames.
  - rewrite Hnames. apply NoDup_ListNoDup, List.NoDup_filter, NoDup_ListNoDup.
    apply (bool_decide_unpack _). vm_compute. exact I.
  - intros t (name & Hname & Ht)%list_elem_of_omap.
    case_bool_decide; [|done]. injection Ht as <-. done.
Qed.
End ToolsMore.

(** * Properties of reading the culprit *)

Module MakePredsFacts.
Import MakePreds.

(** *** Strings *)

Lemma string_app_cons c (s t : string) : String c s +:+ t = String c (s +:+ t).
Proof. reflexivity. Qed.

Lemma string_app_nil_l (t : string) : EmptyString +:+ t = t.
Proof. reflexivity. Qed.

Lemma string_app_nil_r (s : string) : s +:+ EmptyString = s.
Proof. induction s as [|c s IH]; [done|]. by rewrite string_app_cons, IH. Qed.

Lemma string_app_assoc (a b c : string) : (a +:+ b) +:+ c = a +:+ b +:+ c.
Proof. induction a as [|x a IH]; [done|]. by rewrite !string_app_cons, IH. Qed.

Lemma prefix_app (p x : string) : String.prefix p (p +:+ x) = true.
Proof.
  induction p as [|c p IH]; [by destruct x|].
  rewrite string_app_cons. cbn [String.prefix]. by destruct (ascii_dec c c).
Qed.

Lemma prefix_split (p s : string) :
  String.prefix p s = true → ∃ x, s = p +:+ x.
Proof.
  revert s. induction p as [|c p IH]; intros s.
  - by exists s.
  - destruct s as [|d s]; [done|]. cbn [String.prefix].
    destruct (ascii_dec c d) as [->|]; [|done].
    intros [x ->]%IH. by exists x.
Qed.

Lemma contains_app_l (sub s b : string) :
  contains sub s = true → contains sub (s +:+ b) = true.
Proof.
  induction s as [|c s IH].
  - cbn [contains]. rewrite orb_false_r. intros [x Hx]%prefix_split.
    destruct sub; [|done]. by destruct b.
  - rewrite string_app_cons. cbn [contains]. intros [Hp|Hc]%orb_prop.
    + apply prefix_split in Hp as [x Hx].
      rewrite <- string_app_cons, Hx, string_app_assoc. by rewrite prefix_app.
    + rewrite (IH Hc). apply orb_true_r.
Qed.

Lemma contains_app_r (sub a s : string) :
  contains sub s = true → contains sub (a +:+ s) = true.
Proof.
  intros Hs. induction a as [|c a IH]; [done|].
  rewrite string_app_cons. cbn [contains]. rewrite IH. apply orb_true_r.
Qed.

Lemma contains_occurs (sub l s : string) :
  contains sub l = true → occurs_in l s → contains sub s = true.
Proof.
  intros Hl (a & b & ->). by apply contains_app_r, contains_app_l.
Qed.

Lemma occurs_in_trans (x y z : string) :
  occurs_in x y → occurs_in y z → occurs_in x z.
Proof.
  intros (a & b & ->) (a' & b' & ->).
  exists (a' +:+ a), (b +:+ b'). by rewrite !string_app_assoc.
Qed.

(** *** Characters *)

Lemma linebreak_isspace c : py_linebreak c = true → py_isspace c = true.
Proof. destruct c as [[] [] [] [] [] [] [] []]; vm_compute; (reflexivity || discriminate). Qed.

Lemma isspace_lower_char c : py_isspace (py_lower_char c) = py_isspace c.
Proof. destruct c as [[] [] [] [] [] [] [] []]; vm_compute; reflexivity. Qed.

Lemma linebreak_lower_char c : py_linebreak (py_lower_char c) = py_linebreak c.
Proof. destruct c as [[] [] [] [] [] [] [] []]; vm_compute; reflexivity. Qed.

Lemma colon_lower_char c : Ascii.eqb (py_lower_char c) ":" = Ascii.eqb c ":".
Proof. destruct c as [[] [] [] [] [] [] [] []]; vm_compute; reflexivity. Qed.

Lemma py_lower_app (a b : string) : py_lower (a +:+ b) = py_lower a +:+ py_lower b.
Proof.
  induction a as [|c a IH]; [done|].
  rewrite string_app_cons. cbn [py_lower]. by rewrite IH.
Qed.

Lemma occurs_in_lower (l s : string) :
  occurs_in l s → occurs_in (py_lower l) (py_lower s).
Proof.
  intros (a & b & ->). exists (py_lower a), (py_lower b).
  by rewrite !py_lower_app.
Qed.

Lemma one_line_lower (s : string) : one_line (py_lower s) = one_line s.
Proof. induction s as [|c s IH]; simpl; by rewrite ?linebreak_lower_char, ?IH. Qed.

Lemma colon_free_lower (s : string) : colon_free (py_lower s) = colon_free s.
Proof. induction s as [|c s IH]; simpl; by rewrite ?colon_lower_char, ?IH. Qed.

Lemma one_line_app (a b : string) :
  one_line (a +:+ b) = one_line a && one_line b.
Proof.
  induction a as [|c a IH]; [done|].
  rewrite string_app_cons. cbn [one_line]. by rewrite IH, andb_assoc.
Qed.

(** *** Stripping *)

Lemma py_lstrip_suffix (s : string) : ∃ a, s = a +:+ py_lstrip s.
Proof.
  induction s as [|c s [a IH]]; [by exists EmptyString|].
  cbn [py_lstrip]. destruct (py_isspace c).
  - exists (String c a). by rewrite string_app_cons, <- IH.
  - by exists EmptyString.
Qed.

Lemma py_rstrip_prefix (s : string) : ∃ b, s = py_rstrip s +:+ b.
Proof.
  induction s as [|c s [b IH]]; [by exists EmptyString|].
  cbn [py_rstrip]. destruct (py_rstrip s) as [|d r] eqn:Hr.
  - destruct (py_isspace c).
    + by exists (String c s).
    + exists s. done.
  - exists b. by rewrite string_app_cons, <- IH.
Qed.

Lemma py_strip_occurs (s : string) : occurs_in (py_strip s) s.
Proof.
  unfold py_strip.
  destruct (py_lstrip_suffix s) as [a Ha].
  destruct (py_rstrip_prefix (py_lstrip s)) as [b Hb].
  exists a, b. by rewrite <- Hb.
Qed.

Lemma py_rstrip_cons_nonspace c (s : string) :
  py_isspace c = false → py_rstrip (String c s) = String c (py_rstrip s).
Proof. intros Hc. simpl. rewrite Hc. by destruct (py_rstrip s). Qed.

Lemma py_rstrip_cons c (s : string) :
  py_rstrip (String c s)
  = match py_rstrip s with
    | EmptyString => if py_isspace c then EmptyString else String c EmptyString
    | r => String c r
    end.
Proof. reflexivity. Qed.

Lemma py_rstrip_idemp (s : string) : py_rstrip (py_rstrip s) = py_rstrip s.
Proof.
  induction s as [|c s IH]; [done|]. rewrite py_rstrip_cons.
  destruct (py_rstrip s) as [|d r] eqn:Hr.
  - destruct (py_isspace c) eqn:Hc; [done|]. simpl. by rewrite Hc.
  - by rewrite py_rstrip_cons, IH.
Qed.

Lemma py_lstrip_nonspace c (s : string) :
  py_isspace c = false → py_lstrip (String c s) = String c s.
Proof. intros Hc. simpl. by rewrite Hc. Qed.

Lemma py_lstrip_rstrip (s : string) :
  py_lstrip (py_rstrip s) = py_rstrip (py_lstrip s).
Proof.
  induction s as [|c s IH]; [done|].
  destruct (py_isspace c) eqn:Hc.
  - assert (py_lstrip (String c s) = py_lstrip s) as ->
      by (cbn [py_lstrip]; by rewrite Hc).
    rewrite <- IH, py_rstrip_cons.
    destruct (py_rstrip s) as [|d r]; rewrite ?Hc; [done|].
    cbn [py_lstrip]. by rewrite Hc.
  - rewrite (py_lstrip_nonspace c s Hc), (py_rstrip_cons_nonspace c s Hc).
    by rewrite py_lstrip_nonspace.
Qed.

Lemma py_strip_rstrip (s : string) : py_strip (py_rstrip s) = py_strip s.
Proof. unfold py_strip. by rewrite py_lstrip_rstrip, py_rstrip_idemp. Qed.

Lemma py_lstrip_idemp (s : string) : py_lstrip (py_lstrip s) = py_lstrip s.
Proof.
  induction s as [|c s IH]; [done|]. simpl.
  destruct (py_isspace c) eqn:Hc; [done|]. simpl. by rewrite Hc.
Qed.

Lemma py_strip_idemp (s : string) : py_strip (py_strip s) = py_strip s.
Proof.
  unfold py_strip.
  by rewrite py_lstrip_rstrip, py_lstrip_idemp, py_rstrip_idemp.
Qed.

Lemma py_rstrip_app_nonspace (a : string) c (b : string) :
  py_isspace c = false →
  py_rstrip (a +:+ String c b) = a +:+ String c (py_rstrip b).
Proof.
  intros Hc. induction a as [|d a IH]; [by apply py_rstrip_cons_nonspace|].
  rewrite !string_app_cons. cbn [py_rstrip]. rewrite IH.
  by destruct a.
Qed.

(** *** Lines *)

Lemma splitlines_break c (s : string) :
  py_linebreak c = true →
  py_splitlines (String c s) = EmptyString :: py_splitlines (after_break c s).
Proof.
  intros Hc. cbn [py_splitlines]. rewrite Hc. unfold after_break.
  destruct (Ascii.eqb c carriage_return); [|done].
  destruct s as [|d s]; [done|]. by destruct (Ascii.eqb d line_feed).
Qed.

Lemma splitlines_char c (s : string) :
  py_linebreak c = false →
  py_splitlines (String c s)
  = match py_splitlines s with
    | [] => [String c EmptyString]
    | l :: ls => String c l :: ls
    end.
Proof. intros Hc. cbn [py_splitlines]. by rewrite Hc. Qed.

Lemma splitlines_nil (s : string) : py_splitlines s = [] → s = EmptyString.
Proof.
  destruct s as [|c s]; [done|].
  destruct (py_linebreak c) eqn:Hc.
  - by rewrite splitlines_break.
  - rewrite splitlines_char by done. by destruct (py_splitlines s).
Qed.

Lemma after_break_suffix c (s : string) :
  ∃ p, s = p +:+ after_break c s.
Proof.
  unfold after_break. destruct (Ascii.eqb c carriage_return).
  - destruct s as [|d s]; [by exists EmptyString|].
    destruct (Ascii.eqb d line_feed).
    + by exists (String d EmptyString).
    + by exists EmptyString.
  - by exists EmptyString.
Qed.

Lemma after_break_length c (s : string) :
  String.length (after_break c s) ≤ String.length s.
Proof.
  unfold after_break. destruct (Ascii.eqb c carriage_return); [|done].
  destruct s as [|d s]; [done|].
  destruct (Ascii.eqb d line_feed); simpl; lia.
Qed.

(** What [after_break] does before a line feed and a rest. *)
Lemma after_break_app c (a t : string) :
  (a = EmptyString ∧ after_break c (newline +:+ t) = t
   ∧ after_break c newline = EmptyString)
  ∨ ∃ a', String.length a' ≤ String.length a
          ∧ after_break c (a +:+ newline +:+ t) = a' +:+ newline +:+ t
          ∧ after_break c (a +:+ newline) = a' +:+ newline.
Proof.
  unfold after_break. destruct (Ascii.eqb c carriage_return).
  - destruct a as [|d a].
    + left. done.
    + right. rewrite !string_app_cons. destruct (Ascii.eqb d line_feed).
      * exists a. simpl. split; [lia|done].
      * exists (String d a). done.
  - right. by exists a.
Qed.

Lemma splitlines_app_newline (a b : string) :
  py_splitlines (a +:+ newline +:+ b)
  = py_splitlines (a +:+ newline) ++ py_splitlines b.
Proof.
  remember (String.length a) as n eqn:Hn. revert a Hn.
  induction n as [n IH] using lt_wf_ind. intros a Hn.
  destruct a as [|c a].
  - unfold newline. rewrite !string_app_nil_l, string_app_cons, string_app_nil_l.
    rewrite !splitlines_break by reflexivity. done.
  - rewrite !string_app_cons. destruct (py_linebreak c) eqn:Hc.
    + rewrite !splitlines_break by done.
      destruct (after_break_app c a b) as [(-> & H1 & H2)|(a' & Hlen & -> & ->)].
      * by rewrite !string_app_nil_l, H1, H2.
      * simpl in Hn. rewrite (IH (String.length a')) by (done || lia). done.
    + rewrite !splitlines_char by done.
      simpl in Hn. rewrite (IH (String.length a)) by (done || lia).
      destruct (py_splitlines (a +:+ newline)) as [|l ls] eqn:Hl; [|done].
      apply splitlines_nil in Hl. by destruct a.
Qed.

Lemma splitlines_one_line (s : string) :
  one_line s = true →
  py_splitlines (s +:+ newline) = [s]
  ∧ (s ≠ EmptyString → py_splitlines s = [s]).
Proof.
  induction s as [|c s IH]; intros Hs.
  - split; [|done]. unfold newline. rewrite string_app_nil_l.
    by rewrite splitlines_break.
  - cbn [one_line] in Hs. apply andb_prop in Hs as [Hc Hs].
    apply negb_true_iff in Hc. destruct (IH Hs) as [IH1 IH2].
    split.
    + by rewrite string_app_cons, splitlines_char, IH1.
    + intros _. rewrite splitlines_char by done.
      destruct s as [|d s]; [done|]. by rewrite IH2.
Qed.

(** The first line is a prefix of the text and every line occurs in it. *)
Lemma splitlines_occur (s : string) :
  (∀ l ls, py_splitlines s = l :: ls → ∃ b, s = l +:+ b)
  ∧ (∀ l, l ∈ py_splitlines s → occurs_in l s).
Proof.
  remember (String.length s) as n eqn:Hn. revert s Hn.
  induction n as [n IH] using lt_wf_ind. intros s Hn.
  destruct s as [|c s]; [split; [done|by intros l Hl%elem_of_nil]|].
  simpl in Hn. destruct (py_linebreak c) eqn:Hc.
  - rewrite splitlines_break by done. split.
    + intros l ls [= <- _]. by exists (String c s).
    + intros l [->|Hl]%elem_of_cons.
      * by exists EmptyString, (String c s).
      * pose proof (after_break_length c s) as Hlen.
        destruct (IH (String.length (after_break c s))) with (s := after_break c s)
          as [_ Hocc]; [lia|done|].
        destruct (after_break_suffix c s) as [p Hp].
        eapply occurs_in_trans; [by apply Hocc|].
        exists (String c p), EmptyString.
        by rewrite string_app_nil_r, string_app_cons, <- Hp.
  - rewrite splitlines_char by done.
    destruct (IH (String.length s)) with (s := s) as [Hfirst Hocc]; [lia|done|].
    destruct (py_splitlines s) as [|l0 ls0] eqn:Hs.
    + apply splitlines_nil in Hs as ->. split.
      * intros l ls [= <- _]. by exists EmptyString.
      * intros l ->%list_elem_of_singleton. by exists EmptyString, EmptyString.
    + destruct (Hfirst l0 ls0 eq_refl) as [b Hb]. split.
      * intros l ls [= <- _]. exists b. by rewrite string_app_cons, <- Hb.
      * intros l [->|Hl]%elem_of_cons.
        -- exists EmptyString, b. by rewrite string_app_nil_l, string_app_cons, <- Hb.
        -- destruct (Hocc l) as (x & y & Hxy); [by right|].
           exists (String c x), y. by rewrite string_app_cons, <- Hxy.
Qed.

Lemma stripped_lines_occur (output l : string) :
  l ∈ stripped_lines output → occurs_in l output.
Proof.
  unfold stripped_lines. intros (raw & Hraw & Hl)%list_elem_of_omap.
  destruct (is_empty (py_strip raw)); [done|]. injection Hl as <-.
  eapply occurs_in_trans; [apply py_strip_occurs|].
  by apply splitlines_occur.
Qed.

(** *** The verdict line *)

Lemma after_first_colon_app (p x : string) :
  colon_free p = true →
  after_first_colon (p +:+ String ":" x) = Some x.
Proof.
  induction p as [|c p IH]; [done|]. cbn [colon_free].
  intros [Hc Hp]%andb_prop. apply negb_true_iff in Hc.
  rewrite string_app_cons. cbn [after_first_colon]. rewrite Hc. auto.
Qed.

Lemma after_first_colon_none (s : string) :
  colon_free s = true → after_first_colon s = None.
Proof.
  induction s as [|c s IH]; [done|]. cbn [colon_free after_first_colon].
  intros [Hc Hp]%andb_prop. apply negb_true_iff in Hc. rewrite Hc. auto.
Qed.

Lemma colon_free_app (a b : string) :
  colon_free (a +:+ b) = colon_free a && colon_free b.
Proof.
  induction a as [|c a IH]; [done|].
  rewrite string_app_cons. cbn [colon_free]. by rewrite IH, andb_assoc.
Qed.

Lemma verdict_prefix_nonempty (s : string) :
  String.prefix "final culprit" (py_lower s) = true
  ∨ String.prefix "culprit" (py_lower s) = true →
  is_empty s = false.
Proof. destruct s; [|done]. by intros [?|?]. Qed.

(** The last character is whitespace. *)
Lemma trailing_space_lower (s : string) :
  trailing_space (py_lower s) = trailing_space s.
Proof.
  induction s as [|c s IH]; [done|]. cbn [py_lower trailing_space].
  destruct s as [|d s]; [apply isspace_lower_char|apply IH].
Qed.

Lemma py_rstrip_app_fixed (a b : string) :
  trailing_space a = false → a ≠ EmptyString →
  py_rstrip (a +:+ b) = a +:+ py_rstrip b.
Proof.
  induction a as [|c a IH]; [done|]. intros Hend _.
  destruct a as [|d a].
  - rewrite string_app_cons, string_app_nil_l. by apply py_rstrip_cons_nonspace.
  - rewrite string_app_cons, py_rstrip_cons, IH by done. by rewrite string_app_cons.
Qed.

(** The header of a verdict line: what [h] is when its lower-case form is
    one of the two headers. *)
Lemma header_shape (h : string) :
  py_lower h = "final culprit" ∨ py_lower h = "culprit" →
  colon_free h = true ∧ one_line h = true
  ∧ ∃ c h', h = String c h' ∧ py_isspace c = false.
Proof.
  intros Hh. split_and!.
  - rewrite <- colon_free_lower. by destruct Hh as [-> | ->].
  - rewrite <- one_line_lower. by destruct Hh as [-> | ->].
  - destruct h as [|c h']; [by destruct Hh|]. exists c, h'. split; [done|].
    rewrite <- isspace_lower_char.
    destruct Hh as [Hh|Hh]; cbn [py_lower] in Hh; injection Hh as -> _; done.
Qed.

Lemma verdict_of_last (before : list string) (line : string) :
  String.prefix "final culprit" (py_lower line) = true
  ∨ String.prefix "culprit" (py_lower line) = true →
  verdict_of (reverse (before ++ [line]))
  = Some (py_strip (split_colon_last line)).
Proof.
  intros Hline. rewrite reverse_app, reverse_singleton.
  cbn [app verdict_of].
  destruct (String.prefix "final culprit" (py_lower line)); [done|].
  by destruct Hline as [?| ->].
Qed.

Lemma stripped_lines_last (line output : string) :
  one_line line = true → is_empty (py_strip line) = false →
  ends_with_line line output →
  ∃ before, stripped_lines output = before ++ [py_strip line].
Proof.
  intros Hone Hne Hout.
  assert (Hline : ∀ ending, ending = EmptyString ∨ ending = newline →
            py_splitlines (line +:+ ending) = [line]).
  { intros ending [-> | ->].
    - rewrite string_app_nil_r. apply splitlines_one_line; [done|].
      intros ->. done.
    - by apply splitlines_one_line. }
  unfold stripped_lines. destruct Hout as [ending He|pre ending He].
  - exists []. rewrite (Hline _ He). cbn [omap list_omap]. by rewrite Hne.
  - exists (stripped_lines (pre +:+ newline)).
    rewrite splitlines_app_newline, omap_app, (Hline _ He).
    cbn [omap list_omap]. by rewrite Hne.
Qed.

Lemma extract_culprit_last_line (line output : string) suspects :
  one_line line = true →
  String.prefix "final culprit" (py_lower (py_strip line)) = true
  ∨ String.prefix "culprit" (py_lower (py_strip line)) = true →
  ends_with_line line output →
  extract_culprit output suspects
  = py_strip (split_colon_last (py_strip line)).
Proof.
  intros Hone Hhead Hout.
  destruct (stripped_lines_last line output Hone) as [before Hlines];
    [by apply verdict_prefix_nonempty|done|].
  unfold extract_culprit. cbn zeta. by rewrite Hlines, verdict_of_last.
Qed.

(** X11.  When the last line of the answer is a verdict line, that is a
    header reading [final culprit] or [culprit] in any letter case, further
    text without a colon, a colon, and a name, then [extract_culprit]
    returns the name with surrounding whitespace removed.  This holds
    whatever text precedes the line, with or without a line feed at the
    end, and whatever the suspects are: the name is not checked against
    them. *)
Theorem verdict_line_names_culprit (h mid name output : string) suspects :
  py_lower h = "final culprit" ∨ py_lower h = "culprit" →
  colon_free mid = true → one_line mid = true → one_line name = true →
  ends_with_line (h +:+ mid +:+ ":" +:+ name) output →
  extract_culprit output suspects = py_strip name.
Proof.
  intros Hh Hmid1 Hmid2 Hname Hout.
  destruct (header_shape h Hh) as (Hh1 & Hh2 & c & h' & -> & Hc).
  assert (Hstrip : py_strip (String c h' +:+ mid +:+ ":" +:+ name)
                   = (String c h' +:+ mid) +:+ String ":" (py_rstrip name)).
  { unfold py_strip. rewrite string_app_cons, (py_lstrip_nonspace c _ Hc).
    rewrite <- string_app_cons, <- string_app_assoc.
    change (":" +:+ name) with (String ":" name).
    by rewrite py_rstrip_app_nonspace. }
  erewrite extract_culprit_last_line; [| | |exact Hout].
  - rewrite Hstrip. unfold split_colon_last.
    rewrite after_first_colon_app by (by rewrite colon_free_app, Hh1, Hmid1).
    cbn [default]. apply py_strip_rstrip.
  - rewrite !one_line_app, Hh2, Hmid2, Hname. done.
  - rewrite Hstrip, string_app_assoc, py_lower_app.
    destruct Hh as [-> | ->]; [left|right]; apply prefix_app.
Qed.

(** X12.  On an ASCII answer: when the last line starts with
    [final culprit] or [culprit] in any letter case and has no colon,
    [extract_culprit] returns the whole line, header included, without the
    ASCII whitespace at its end. *)
Theorem verdict_line_without_colon (h rest output : string) suspects :
  ascii_text output = true →
  py_lower h = "final culprit" ∨ py_lower h = "culprit" →
  colon_free rest = true → one_line rest = true →
  ends_with_line (h +:+ rest) output →
  extract_culprit output suspects = h +:+ py_rstrip rest.
Proof.
  intros _ Hh Hrest1 Hrest2 Hout.
  destruct (header_shape h Hh) as (Hh1 & Hh2 & c & h' & Hc' & Hc).
  assert (Hend : trailing_space h = false).
  { rewrite <- trailing_space_lower. by destruct Hh as [-> | ->]. }
  assert (Hne : h ≠ EmptyString) by (by rewrite Hc').
  assert (Hl : ∀ t, py_lstrip (h +:+ t) = h +:+ t).
  { intros t. rewrite Hc', string_app_cons. by apply py_lstrip_nonspace. }
  assert (Hstrip : ∀ t, py_strip (h +:+ t) = h +:+ py_rstrip t).
  { intros t. unfold py_strip. rewrite Hl. by apply py_rstrip_app_fixed. }
  assert (Hfree : colon_free (h +:+ py_rstrip rest) = true).
  { rewrite colon_free_app, Hh1.
    destruct (py_rstrip_prefix rest) as [b Hb].
    rewrite Hb, colon_free_app in Hrest1. by apply andb_prop in Hrest1 as [-> _]. }
  erewrite extract_culprit_last_line; [| | |exact Hout].
  - rewrite Hstrip. unfold split_colon_last.
    rewrite after_first_colon_none by done. cbn [default].
    by rewrite Hstrip, py_rstrip_idemp.
  - by rewrite one_line_app, Hh2, Hrest2.
  - rewrite Hstrip, py_lower_app.
    destruct Hh as [-> | ->]; [left|right]; apply prefix_app.
Qed.

(** *** The fallback *)

Lemma verdict_prefix_contains (x : string) :
  String.prefix "final culprit" x = true ∨ String.prefix "culprit" x = true →
  contains "culprit" x = true.
Proof.
  intros [[y ->]%prefix_split|[y ->]%prefix_split].
  - change ("final culprit" +:+ y) with ("final " +:+ "culprit" +:+ y).
    apply contains_app_r, contains_app_l. reflexivity.
  - apply contains_app_l. reflexivity.
Qed.

Lemma verdict_of_none (ls : list string) :
  Forall (λ l, contains "culprit" (py_lower l) = false) ls →
  verdict_of ls = None.
Proof.
  induction 1 as [|l ls Hl _ IH]; [done|]. cbn [verdict_of].
  destruct (String.prefix "final culprit" (py_lower l)) eqn:H1.
  { rewrite verdict_prefix_contains in Hl by auto. done. }
  destruct (String.prefix "culprit" (py_lower l)) eqn:H2.
  { rewrite verdict_prefix_contains in Hl by auto. done. }
  done.
Qed.

Lemma no_verdict_line (output : string) :
  contains "culprit" (py_lower output) = false →
  verdict_of (reverse (stripped_lines output)) = None.
Proof.
  intros Hout. apply verdict_of_none, Forall_reverse, Forall_forall.
  intros l Hl%stripped_lines_occur%occurs_in_lower.
  destruct (contains "culprit" (py_lower l)) eqn:Hc; [|done].
  by rewrite (contains_occurs _ _ _ Hc Hl) in Hout.
Qed.

(** X13.  On an ASCII answer and ASCII suspect names: when the word
    [culprit] occurs nowhere in the answer, in any letter case,
    [extract_culprit] falls back on the suspects: it returns the first
    suspect of the list whose name occurs in the answer with the case of
    the letters [A-Z] ignored, as the list spells it, and the answer with
    surrounding whitespace removed when no suspect occurs in it. *)
Theorem fallback_on_suspects (output : string) (suspects : list string) :
  ascii_text output = true →
  Forall (λ s, ascii_text s = true) suspects →
  contains "culprit" (py_lower output) = false →
  (∀ before s after,
     suspects = before ++ s :: after →
     Forall (λ b, contains (py_lower b) (py_lower output) = false) before →
     contains (py_lower s) (py_lower output) = true →
     extract_culprit output suspects = s)
  ∧ (Forall (λ s, contains (py_lower s) (py_lower output) = false) suspects →
     extract_culprit output suspects = py_strip output).
Proof.
  intros _ _ Hout. unfold extract_culprit. cbn zeta.
  rewrite (no_verdict_line _ Hout). split.
  - intros before s after -> Hbefore Hs.
    induction Hbefore as [|b before Hb _ IH]; cbn [app find].
    + by rewrite Hs.
    + by rewrite Hb.
  - intros Hnone. induction Hnone as [|s suspects Hs _ IH]; [done|].
    cbn [find]. by rewrite Hs.
Qed.

Lemma verdict_of_stripped (ls : list string) (x : string) :
  verdict_of ls = Some x → py_strip x = x.
Proof.
  induction ls as [|l ls IH]; [done|]. cbn [verdict_of].
  destruct (String.prefix "final culprit" (py_lower l));
    [intros [= <-]; apply py_strip_idemp|].
  destruct (String.prefix "culprit" (py_lower l));
    [intros [= <-]; apply py_strip_idemp|done].
Qed.

(** X14.  Whatever the answer, [extract_culprit] returns one of the listed
    suspects as the list spells it, or a text with no whitespace at its
    start or end. *)
Theorem culprit_is_suspect_or_stripped (output : string) (suspects : list string) :
  extract_culprit output suspects ∈ suspects
  ∨ py_strip (extract_culprit output suspects) = extract_culprit output suspects.
Proof.
  unfold extract_culprit. cbn zeta.
  destruct (verdict_of _) as [x|] eqn:Hv.
  - right. by eapply verdict_of_stripped.
  - destruct (find _ suspects) as [s|] eqn:Hs.
    + left. apply find_some in Hs as [Hin _]. by apply list_elem_of_In.
    + right. apply py_strip_idemp.
Qed.
End MakePredsFacts.

(** * The further properties on the small dataset *)

Module MoreFacts.
Import Demo DemoMore MakePreds.

Local Abbreviation call := (_call FIELD_ALIAS_CATEGORY).

Lemma call_reads_declared_arguments_only_witness :
  kwargs_with_note !! "note" = Some "seen twice"
  ∧ call (tools "smart" false) "review_traffic_cctv" None canonical_kwargs
    = call (tools "smart" false) "review_traffic_cctv" None kwargs_with_note.
Proof.
  split; [vm_compute; reflexivity|].
  apply (call_reads_declared_arguments_only FIELD_ALIAS_CATEGORY
           (tools "smart" false) "review_traffic_cctv" None
           canonical_kwargs kwargs_with_note).
  intros order name Horder Hname.
  vm_compute in Horder. injection Horder as <-.
  apply elem_of_cons in Hname as [->|Hname]; [vm_compute; reflexivity|].
  apply list_elem_of_singleton in Hname as ->. vm_compute. reflexivity.
Defined.

Lemma other_modes_are_smart_witness :
  "Exact" ≠ "exact"
  ∧ value (call (tools "Exact" false) "review_traffic_cctv" None off_script_kwargs)
    = Returned MSG_NO_MATCH_SMART.
Proof.
  assert (H : "Exact" ≠ "exact") by discriminate.
  split; [exact H|].
  pose proof (other_modes_are_smart FIELD_ALIAS_CATEGORY db
                "canteen_cashbox_theft" "Exact" false "review_traffic_cctv"
                None off_script_kwargs H) as Hmode.
  change (call (tools "Exact" false) "review_traffic_cctv" None off_script_kwargs
          = call (tools "smart" false) "review_traffic_cctv" None
              off_script_kwargs) in Hmode.
  rewrite Hmode. vm_compute. reflexivity.
Defined.

Lemma exact_match_in_every_mode_witness :
  value (call (tools "exact" true) "review_traffic_cctv" None canonical_kwargs)
    = Returned cctv_summary
  ∧ value (call (tools "smart" false) "review_traffic_cctv" (Some true)
             canonical_kwargs)
    = Returned cctv_summary.
Proof.
  assert (H : value (call (tools "exact" true) "review_traffic_cctv" None
                       canonical_kwargs) = Returned cctv_summary)
    by (vm_compute; reflexivity).
  split; [exact H|].
  pose proof (exact_match_in_every_mode FIELD_ALIAS_CATEGORY db
                "canteen_cashbox_theft" "smart" false "review_traffic_cctv"
                (Some true) canonical_kwargs cctv_summary H) as Hmode.
  change (call (tools "smart" false) "review_traffic_cctv" (Some true)
            canonical_kwargs
          = (Returned cctv_summary,
             calls (call (tools "exact" true) "review_traffic_cctv" None
                      canonical_kwargs))) in Hmode.
  by rewrite Hmode.
Defined.

Lemma unknown_action_before_enablement_witness :
  input_arg_order db "bribe_witness" = None
  ∧ value (call (tools "smart" false) "bribe_witness" None canonical_kwargs)
    = Returned MSG_UNKNOWN_ACTION.
Proof.
  assert (H : input_arg_order (_db (tools "smart" false)) "bribe_witness" = None)
    by (vm_compute; reflexivity).
  split; [exact H|].
  rewrite (unknown_action_before_enablement FIELD_ALIAS_CATEGORY
             (tools "smart" false) "bribe_witness" None canonical_kwargs);
    [reflexivity|vm_compute; reflexivity|exact H].
Defined.

Lemma failure_messages_are_tagged_witness :
  value (call (tools "exact" true) "review_traffic_cctv" None off_script_kwargs)
    = Raised MSG_NO_MATCH_EXACT
  ∧ value (call (tools "exact" true) "review_traffic_cctv" (Some false)
             off_script_kwargs)
    = Returned MSG_NO_MATCH_EXACT
  ∧ (String.prefix "[error] " MSG_NO_MATCH_EXACT = true
     ∨ String.prefix "[no-match] " MSG_NO_MATCH_EXACT = true).
Proof.
  assert (H : value (call (tools "exact" true) "review_traffic_cctv" None
                       off_script_kwargs) = Raised MSG_NO_MATCH_EXACT)
    by (vm_compute; reflexivity).
  split; [exact H|].
  destruct (failure_messages_are_tagged FIELD_ALIAS_CATEGORY
              (tools "exact" true) "review_traffic_cctv" None
              off_script_kwargs MSG_NO_MATCH_EXACT H)
    as (Hreturned & Htag & _).
  split; [exact Hreturned|exact Htag].
Defined.

Lemma tool_methods_return_by_default_witness :
  raise_errors fresh_tools = false
  ∧ ∃ s, value (interview_witness FIELD_ALIAS_CATEGORY fresh_tools "Ram")
         = Returned s.
Proof.
  assert (H : raise_errors fresh_tools = false) by reflexivity.
  split; [exact H|].
  apply (tool_methods_return_by_default FIELD_ALIAS_CATEGORY
           "interview_witness" fresh_tools ["Ram"] ∅ _ H).
  reflexivity.
Defined.

Lemma tool_methods_on_unknown_case_witness :
  case_exists (_db strict_tools) (case_id strict_tools) = false
  ∧ interview_witness FIELD_ALIAS_CATEGORY strict_tools "Nisha"
    = (Raised MSG_UNKNOWN_CASE, [CallCaseExists "unknown_case"]).
Proof.
  assert (H : case_exists (_db strict_tools) (case_id strict_tools) = false)
    by (vm_compute; reflexivity).
  split; [exact H|].
  apply (tool_methods_on_unknown_case FIELD_ALIAS_CATEGORY
           "interview_witness" strict_tools ["Nisha"] ∅ _ H).
  reflexivity.
Defined.

Lemma tool_method_meets_catalog_witness :
  input_arg_order (_db mismatched_tools) "interview_witness"
    = Some ["witness_name"; "shift"]
  ∧ ∃ missing,
      missing ∈ ["witness_name"; "shift"] ∧ (missing ∉ ["witness_name"])
      ∧ value (interview_witness FIELD_ALIAS_CATEGORY mismatched_tools "Nisha")
        = Returned (MSG_MISSING_ARGUMENT missing ["witness_name"; "shift"]).
Proof.
  assert (H : input_arg_order (_db mismatched_tools) "interview_witness"
              = Some ["witness_name"; "shift"]) by (vm_compute; reflexivity).
  assert (Hr : invoke_tool FIELD_ALIAS_CATEGORY "interview_witness"
                 mismatched_tools ["Nisha"] ∅
               = Completed (interview_witness FIELD_ALIAS_CATEGORY
                              mismatched_tools "Nisha")) by reflexivity.
  assert (Hp : tool_params "interview_witness" = Some ["witness_name"])
    by reflexivity.
  assert (Hc : case_exists (_db mismatched_tools) (case_id mismatched_tools)
               = true) by (vm_compute; reflexivity).
  assert (He : "interview_witness"
               ∈ actions_for_case (_db mismatched_tools)
                   (case_id mismatched_tools)).
  { apply (bool_decide_unpack _). vm_compute. exact I. }
  split; [exact H|].
  destruct (proj2 (tool_method_meets_catalog FIELD_ALIAS_CATEGORY
                     "interview_witness" mismatched_tools ["Nisha"] ∅ _
                     ["witness_name"] ["witness_name"; "shift"]
                     Hr Hp Hc H He)
              "shift")
    as (missing & Hin & Hnot & Hvalue & _).
  - apply (bool_decide_unpack _). vm_compute. exact I.
  - apply (bool_decide_eq_false_1 _). vm_compute. reflexivity.
  - exists missing. split_and!; [exact Hin|exact Hnot|exact Hvalue].
Defined.

Lemma langchain_tool_names_witness :
  as_langchain_tools FIELD_ALIAS_CATEGORY true (tools "smart" false) true
    = Some langchain_tools
  ∧ tool_name <$> langchain_tools
    = ["interview_witness"; "review_traffic_cctv"; "check_vehicle_registration"].
Proof.
  assert (H : as_langchain_tools FIELD_ALIAS_CATEGORY true
                (tools "smart" false) true = Some langchain_tools)
    by reflexivity.
  split; [exact H|].
  rewrite (proj1 (langchain_tool_names FIELD_ALIAS_CATEGORY
                    (tools "smart" false) true langchain_tools H)).
  vm_compute. reflexivity.
Defined.

Lemma verdict_line_names_culprit_witness :
  py_lower "FINAL CULPRIT" = "final culprit"
  ∧ extract_culprit answer ["Nisha"; "Ram"] = "Niraj the Volunteer".
Proof.
  assert (H : py_lower "FINAL CULPRIT" = "final culprit") by reflexivity.
  split; [exact H|].
  rewrite (MakePredsFacts.verdict_line_names_culprit "FINAL CULPRIT" EmptyString
             " Niraj the Volunteer " answer ["Nisha"; "Ram"]
             (or_introl H) eq_refl eq_refl eq_refl
             (last_line _ "The scooter points to one person." newline
                (or_intror eq_refl))).
  reflexivity.
Defined.

Lemma verdict_line_without_colon_witness :
  ascii_text "Culprit is Ram " = true
  ∧ py_lower "Culprit" = "culprit"
  ∧ extract_culprit "Culprit is Ram " ["Nisha"; "Ram"] = "Culprit is Ram".
Proof.
  assert (Ha : ascii_text "Culprit is Ram " = true) by reflexivity.
  assert (H : py_lower "Culprit" = "culprit") by reflexivity.
  split; [exact Ha|]. split; [exact H|].
  rewrite (MakePredsFacts.verdict_line_without_colon "Culprit" " is Ram "
             "Culprit is Ram " ["Nisha"; "Ram"] Ha (or_intror H)
             eq_refl eq_refl (only_line _ EmptyString (or_introl eq_refl))).
  reflexivity.
Defined.

Lemma fallback_on_suspects_witness :
  ascii_text vague_answer = true
  ∧ Forall (λ s, ascii_text s = true) ["Ram"; "Nisha"; "Niraj"]
  ∧ contains "culprit" (py_lower vague_answer) = false
  ∧ extract_culprit vague_answer ["Ram"; "Nisha"; "Niraj"] = "Nisha"
  ∧ extract_culprit vague_answer ["Ram"] = "It was probably NISHA.".
Proof.
  assert (Ha : ascii_text vague_answer = true) by (vm_compute; reflexivity).
  assert (Hs : Forall (λ s, ascii_text s = true) ["Ram"; "Nisha"; "Niraj"])
    by (repeat constructor).
  assert (Hs1 : Forall (λ s, ascii_text s = true) ["Ram"])
    by (repeat constructor).
  assert (H : contains "culprit" (py_lower vague_answer) = false)
    by (vm_compute; reflexivity).
  split; [exact Ha|]. split; [exact Hs|]. split; [exact H|]. split.
  - apply (proj1 (MakePredsFacts.fallback_on_suspects vague_answer
                    ["Ram"; "Nisha"; "Niraj"] Ha Hs H)
             ["Ram"] "Nisha" ["Niraj"] eq_refl).
    + repeat constructor.
    + vm_compute. reflexivity.
  - rewrite (proj2 (MakePredsFacts.fallback_on_suspects vague_answer ["Ram"]
                      Ha Hs1 H)).
    + vm_compute. reflexivity.
    + repeat constructor.
Defined.
End MoreFacts.
